(** * sql-loader-go: loading a SQL script and running it statement by statement

    A shallow embedding of [internal/loader/loader.go],
    [internal/database/database.go] and the command that puts them together,
    [cmd/sql-loader/main.go].

    Go strings are byte sequences, so a string is a [list byte].  The two
    library routines that carry the logic of [ExecuteScript],
    [strings.TrimSpace] and [strings.Split], are transcribed from the Go
    standard library together with the UTF-8 decoding they rest on
    ([unicode/utf8], [unicode.IsSpace]).  The database driver, the file system
    and the errors they produce are the environment: they are variables of a
    section, and every call made to them is recorded in a log. *)

From Stdlib Require Import Strings.Byte Strings.String.
From Stdlib Require Import List ZArith Lia Bool Arith.
Import ListNotations.

Local Open Scope Z_scope.

(** ** Go strings *)

Definition gostring := list byte.

(** Numeric value of a byte, [uint8] widened to an integer. *)
Definition val (b : byte) : Z := Z.of_N (Byte.to_N b).

(** A literal. *)
Definition lit (s : String.string) : gostring := String.list_byte_of_string s.

(** [s[i:j]] *)
Definition slice (s : gostring) (i j : nat) : gostring := firstn (j - i) (skipn i s).

(** [s[i]]; reading out of range panics in Go and is never done below. *)
Definition at_ (s : gostring) (i : nat) : byte := nth i s x00.

(** [s == ""] *)
Definition isEmpty (s : gostring) : bool :=
  match s with [] => true | _ => false end.

(** ** unicode/utf8 *)

Module utf8.

Definition rune := Z.

Definition RuneError : rune := 0xFFFD.
Definition RuneSelf : Z := 0x80.
Definition UTFMax : nat := 4.

Definition maskx : Z := 0x3F.
Definition mask2 : Z := 0x1F.
Definition mask3 : Z := 0x0F.
Definition mask4 : Z := 0x07.

Definition locb : Z := 0x80.
Definition hicb : Z := 0xBF.

(** Information about the first byte of an encoding: the size in the low
    bits, the index into [acceptRanges] in the high ones. *)
Definition xx : Z := 0xF1.
Definition as_ : Z := 0xF0.
Definition s1 : Z := 0x02.
Definition s2 : Z := 0x13.
Definition s3 : Z := 0x03.
Definition s4 : Z := 0x23.
Definition s5 : Z := 0x34.
Definition s6 : Z := 0x04.
Definition s7 : Z := 0x44.

(** The table [first[256]], row by row. *)
Definition first (b : byte) : Z :=
  let c := val b in
  if c <? 0x80 then as_
  else if c <? 0xC2 then xx
  else if c <? 0xE0 then s1
  else if c =? 0xE0 then s2
  else if c <? 0xED then s3
  else if c =? 0xED then s4
  else if c <? 0xF0 then s3
  else if c =? 0xF0 then s5
  else if c <? 0xF4 then s6
  else if c =? 0xF4 then s7
  else xx.

(** [acceptRanges[16]]: the bounds of the second byte. *)
Definition acceptRanges (i : Z) : Z * Z :=
  match i with
  | 0 => (locb, hicb)
  | 1 => (0xA0, hicb)
  | 2 => (locb, 0x9F)
  | 3 => (0x90, hicb)
  | 4 => (locb, 0x8F)
  | _ => (0, 0)
  end.

(** [int32] conversion, with wrap-around. *)
Definition int32 (z : Z) : Z := (z + 2 ^ 31) mod 2 ^ 32 - 2 ^ 31.

(** The branch-free ASCII/invalid case of the decoder:
    [mask := rune(x) << 31 >> 31; rune(s0) &^ mask | RuneError & mask]. *)
Definition rune1 (x : Z) (b0 : byte) : rune :=
  let mask := Z.shiftr (int32 (Z.shiftl x 31)) 31 in
  Z.lor (Z.land (val b0) (Z.lnot mask)) (Z.land RuneError mask).

Definition rune2 (b0 b1 : byte) : rune :=
  Z.lor (Z.shiftl (Z.land (val b0) mask2) 6) (Z.land (val b1) maskx).

Definition rune3 (b0 b1 b2 : byte) : rune :=
  Z.lor (Z.lor (Z.shiftl (Z.land (val b0) mask3) 12)
               (Z.shiftl (Z.land (val b1) maskx) 6))
        (Z.land (val b2) maskx).

Definition rune4 (b0 b1 b2 b3 : byte) : rune :=
  Z.lor (Z.lor (Z.lor (Z.shiftl (Z.land (val b0) mask4) 18)
                      (Z.shiftl (Z.land (val b1) maskx) 12))
               (Z.shiftl (Z.land (val b2) maskx) 6))
        (Z.land (val b3) maskx).

(** Is the byte outside [lo, hi]? *)
Definition outside (lo hi : Z) (b : byte) : bool :=
  (val b <? lo) || (hi <? val b).

(** [utf8.DecodeRuneInString]: the first rune of [s] and its width in bytes;
    [(RuneError, 0)] on the empty string, [(RuneError, 1)] on an invalid
    encoding. *)
Definition DecodeRuneInString (s : gostring) : rune * nat :=
  match s with
  | [] => (RuneError, 0%nat)
  | b0 :: t0 =>
    let x := first b0 in
    if as_ <=? x then (rune1 x b0, 1%nat)
    else
      let sz := Z.to_nat (Z.land x 7) in
      let accept := acceptRanges (Z.shiftr x 4) in
      if (length s <? sz)%nat then (RuneError, 1%nat)
      else match t0 with
      | [] => (RuneError, 1%nat)
      | b1 :: t1 =>
        if outside (fst accept) (snd accept) b1 then (RuneError, 1%nat)
        else if (sz <=? 2)%nat then (rune2 b0 b1, 2%nat)
        else match t1 with
        | [] => (RuneError, 1%nat)
        | b2 :: t2 =>
          if outside locb hicb b2 then (RuneError, 1%nat)
          else if (sz <=? 3)%nat then (rune3 b0 b1 b2, 3%nat)
          else match t2 with
          | [] => (RuneError, 1%nat)
          | b3 :: _ =>
            if outside locb hicb b3 then (RuneError, 1%nat)
            else (rune4 b0 b1 b2 b3, 4%nat)
          end
        end
      end
  end.

(** [utf8.RuneStart]: not a continuation byte. *)
Definition RuneStart (b : byte) : bool :=
  negb (Z.land (val b) 0xC0 =? 0x80).

(** The backward search of [DecodeLastRuneInString]:
    [for start--; start >= lim; start-- { if RuneStart(s[start]) { break } }],
    entered after the first decrement.  At most [UTFMax] tests of the loop
    condition are made. *)
Fixpoint lastStart (fuel : nat) (s : gostring) (start lim : Z) : Z :=
  match fuel with
  | O => start
  | S fuel' =>
    if start <? lim then start
    else if RuneStart (at_ s (Z.to_nat start)) then start
    else lastStart fuel' s (start - 1) lim
  end.

(** [utf8.DecodeLastRuneInString]: the last rune of [s] and its width. *)
Definition DecodeLastRuneInString (s : gostring) : rune * nat :=
  let end_ := Z.of_nat (length s) in
  if end_ =? 0 then (RuneError, 0%nat)
  else
    let start := end_ - 1 in
    let r := val (at_ s (Z.to_nat start)) in
    if r <? RuneSelf then (r, 1%nat)
    else
      let lim := Z.max (end_ - Z.of_nat UTFMax) 0 in
      let start := lastStart UTFMax s (start - 1) lim in
      let start := if start <? 0 then 0 else start in
      let '(r, size) := DecodeRuneInString (slice s (Z.to_nat start) (length s)) in
      if negb (start + Z.of_nat size =? end_) then (RuneError, 1%nat)
      else (r, size).

End utf8.

(** ** unicode.IsSpace *)

Module unicode.

Definition MaxLatin1 : Z := 0xFF.

(** The ranges of the [White_Space] table above Latin-1. *)
Definition White_Space_above_Latin1 (r : Z) : bool :=
  (r =? 0x1680)
  || ((0x2000 <=? r) && (r <=? 0x200A))
  || ((0x2028 <=? r) && (r <=? 0x2029))
  || (r =? 0x202F)
  || (r =? 0x205F)
  || (r =? 0x3000).

Definition IsSpace (r : utf8.rune) : bool :=
  if r <=? MaxLatin1 then
    match r with
    | 0x09 | 0x0A | 0x0B | 0x0C | 0x0D | 0x20 | 0x85 | 0xA0 => true
    | _ => false
    end
  else White_Space_above_Latin1 r.

End unicode.

(** ** strings *)

Module strings.

Import utf8.

Local Open Scope nat_scope.

Section Funcs.

Variable f : rune -> bool.
Variable truth : bool.

(** [for i, r := range s { if f(r) == truth { return i } }; return -1],
    on the part [rest] of the string that starts at byte [i].  [None] is
    the result -1. *)
Fixpoint indexFunc_range (fuel : nat) (rest : gostring) (i : nat) : option nat :=
  match fuel with
  | O => None
  | S fuel' =>
    match rest with
    | [] => None
    | _ =>
      let '(r, size) := DecodeRuneInString rest in
      if Bool.eqb (f r) truth then Some i
      else indexFunc_range fuel' (skipn size rest) (i + size)
    end
  end.

Definition indexFunc (s : gostring) : option nat :=
  indexFunc_range (length s) s 0.

(** [for i := len(s); i > 0; { r, size := DecodeLastRuneInString(s[0:i]);
    i -= size; if f(r) == truth { return i } }; return -1] *)
Fixpoint lastIndexFunc_loop (fuel : nat) (s : gostring) (i : nat) : option nat :=
  match fuel with
  | O => None
  | S fuel' =>
    if i =? 0 then None
    else
      let '(r, size) := DecodeLastRuneInString (slice s 0 i) in
      let i := i - size in
      if Bool.eqb (f r) truth then Some i
      else lastIndexFunc_loop fuel' s i
  end.

Definition lastIndexFunc (s : gostring) : option nat :=
  lastIndexFunc_loop (length s) s (length s).

End Funcs.

Definition TrimLeftFunc (s : gostring) (f : rune -> bool) : gostring :=
  match indexFunc f false s with
  | None => []
  | Some i => slice s i (length s)
  end.

Definition TrimRightFunc (s : gostring) (f : rune -> bool) : gostring :=
  match lastIndexFunc f false s with
  | Some i =>
    if (RuneSelf <=? val (at_ s i))%Z then
      let '(_, wid) := DecodeRuneInString (slice s i (length s)) in
      slice s 0 (i + wid)
    else slice s 0 (i + 1)
  | None => slice s 0 0
  end.

Definition TrimFunc (s : gostring) (f : rune -> bool) : gostring :=
  TrimRightFunc (TrimLeftFunc s f) f.

(** The table [asciiSpace]. *)
Definition asciiSpace (c : byte) : bool :=
  match c with
  | x09 | x0a | x0b | x0c | x0d | x20 => true
  | _ => false
  end.

(** What a scan of [TrimSpace] ends with: an index, or the index of a byte
    that is not ASCII, where the function falls back on the Unicode-aware
    routines. *)
Inductive scan :=
| Found (i : nat)
| NonASCII (i : nat).

(** [for ; start < len(s); start++], on the bytes [rest] from [start] on. *)
Fixpoint scanStart (rest : gostring) (start : nat) : scan :=
  match rest with
  | [] => Found start
  | c :: rest' =>
    if (RuneSelf <=? val c)%Z then NonASCII start
    else if negb (asciiSpace c) then Found start
    else scanStart rest' (S start)
  end.

(** [for ; stop > start; stop--]; [fuel] is [stop - start]. *)
Fixpoint scanStop (fuel : nat) (s : gostring) (stop : nat) : scan :=
  match fuel with
  | O => Found stop
  | S fuel' =>
    let c := at_ s (stop - 1) in
    if (RuneSelf <=? val c)%Z then NonASCII stop
    else if negb (asciiSpace c) then Found stop
    else scanStop fuel' s (stop - 1)
  end.

(** [strings.TrimSpace] *)
Definition TrimSpace (s : gostring) : gostring :=
  match scanStart s 0 with
  | NonASCII start => TrimFunc (slice s start (length s)) unicode.IsSpace
  | Found start =>
    match scanStop (length s - start) s (length s) with
    | NonASCII stop => TrimRightFunc (slice s start stop) unicode.IsSpace
    | Found stop => slice s start stop
    end
  end.

(** [strings.Count] and [strings.Index] for a separator of one byte, the only
    kind the program uses: they are the byte routines [CountString] and
    [IndexByteString]. *)
Fixpoint Count (s : gostring) (sep : byte) : nat :=
  match s with
  | [] => 0
  | c :: s' => (if Byte.eqb c sep then 1 else 0) + Count s' sep
  end.

Fixpoint Index (s : gostring) (sep : byte) : option nat :=
  match s with
  | [] => None
  | c :: s' =>
    if Byte.eqb c sep then Some 0
    else match Index s' sep with
         | Some m => Some (S m)
         | None => None
         end
  end.

(** The loop of [genSplit], [n] being the number of separators left to find:
    [for i < n { m := Index(s, sep); if m < 0 { break }; a[i] = s[:m];
    s = s[m+len(sep):]; i++ }; a[i] = s]. *)
Fixpoint genSplit_loop (n : nat) (s : gostring) (sep : byte) : list gostring :=
  match n with
  | O => [s]
  | S n' =>
    match Index s sep with
    | None => [s]
    | Some m => slice s 0 m :: genSplit_loop n' (slice s (m + 1) (length s)) sep
    end
  end.

(** [strings.Split(s, sep)] is [genSplit(s, sep, 0, -1)], with
    [n = Count(s, sep) + 1] pieces. *)
Definition Split (s : gostring) (sep : byte) : list gostring :=
  genSplit_loop (Count s sep) s sep.

End strings.

Definition semicolon : byte := x3b.

(** ** Errors *)

(** An [error] value, as far as the program can tell: its message
    ([Error()]) and the error it wraps, if any ([Unwrap()]). *)
Inductive error : Type :=
| Plain (msg : gostring)
| Wrapping (msg : gostring) (cause : error).

Definition Error (e : error) : gostring :=
  match e with
  | Plain msg => msg
  | Wrapping msg _ => msg
  end.

Definition Unwrap (e : error) : option error :=
  match e with
  | Plain _ => None
  | Wrapping _ cause => Some cause
  end.

(** A piece of a format string with its operand: literal text, [%w] and
    [%v]. *)
Inductive piece : Type :=
| Text (s : String.string)
| W (e : error)
| V (e : error).

Definition render (p : piece) : gostring :=
  match p with
  | Text s => lit s
  | W e => Error e
  | V e => Error e
  end.

Fixpoint wrappedOperand (ps : list piece) : option error :=
  match ps with
  | [] => None
  | W e :: _ => Some e
  | _ :: ps' => wrappedOperand ps'
  end.

(** [fmt.Errorf]: the message is the formatted text, and the operand of [%w]
    is what [Unwrap] returns. *)
Definition Errorf (ps : list piece) : error :=
  let msg := concat (map render ps) in
  match wrappedOperand ps with
  | Some e => Wrapping msg e
  | None => Plain msg
  end.

(** ** The environment: database driver and file system *)

Section Program.

(** Everything outside the process: servers, database contents, files. *)
Variable World : Type.
(** The values of [*sql.DB] other than [nil]. *)
Variable Handle : Type.
(** [sql.Result] *)
Variable Result : Type.

Variable sql_Open : gostring -> gostring -> World -> (Handle + error) * World.
Variable db_Ping : Handle -> World -> option error * World.
Variable db_Close : Handle -> World -> option error * World.
Variable db_Exec : Handle -> gostring -> World -> (Result + error) * World.
Variable os_ReadFile : gostring -> World -> (gostring + error) * World.

(** A call made to the environment. *)
Inductive call : Type :=
| CallOpen (driver dsn : gostring)
| CallPing (db : Handle)
| CallClose (db : Handle)
| CallExec (db : Handle) (query : gostring)
| CallReadFile (path : gostring).

(** The world, and the calls made so far, oldest first. *)
Record state : Type := mkState { world : World; log : list call }.

Definition M (A : Type) : Type := state -> A * state.

Definition ret {A} (a : A) : M A := fun st => (a, st).

Definition bind {A B} (m : M A) (k : A -> M B) : M B :=
  fun st => let '(a, st') := m st in k a st'.

Notation "x <- m ;; k" := (bind m (fun x => k))
  (at level 61, m at next level, right associativity).

(** A call: the environment answers and moves on, the log grows. *)
Definition perform {A} (c : call) (op : World -> A * World) : M A :=
  fun st => let '(a, w) := op (world st) in (a, mkState w (log st ++ [c])).

Definition Open (driver dsn : gostring) : M (Handle + error) :=
  perform (CallOpen driver dsn) (sql_Open driver dsn).
Definition Ping (db : Handle) : M (option error) :=
  perform (CallPing db) (db_Ping db).
Definition Close (db : Handle) : M (option error) :=
  perform (CallClose db) (db_Close db).
Definition Exec (db : Handle) (query : gostring) : M (Result + error) :=
  perform (CallExec db query) (db_Exec db query).
Definition ReadFile (path : gostring) : M (gostring + error) :=
  perform (CallReadFile path) (os_ReadFile path).

(** ** internal/loader: LoadScript *)

Definition LoadScript (path : gostring) : M (gostring * option error) :=
  if isEmpty path then
    ret ([], Some (Errorf [Text "script path cannot be empty"]))
  else
    r <- ReadFile path ;;
    match r with
    | inr err => ret ([], Some (Errorf [Text "failed to read script file: "; W err]))
    | inl content => ret (content, None)
    end.

(** ** internal/database: Connect *)

Definition Connect (driver dsn : gostring) : M (option Handle * option error) :=
  if isEmpty dsn then
    ret (None, Some (Errorf [Text "DSN cannot be empty"]))
  else
    r <- Open driver dsn ;;
    match r with
    | inr err => ret (None, Some (Errorf [Text "failed to open database: "; W err]))
    | inl db =>
      perr <- Ping db ;;
      match perr with
      | Some err =>
        cerr <- Close db ;;
        match cerr with
        | Some closeErr =>
          ret (None, Some (Errorf [Text "failed to ping database: "; W err;
                                   Text " (close error: "; V closeErr; Text ")"]))
        | None =>
          ret (None, Some (Errorf [Text "failed to ping database: "; W err]))
        end
      | None => ret (Some db, None)
      end
    end.

(** ** internal/database: ExecuteScript *)

(** [for _, stmt := range statements { ... }] *)
Fixpoint executeStatements (db : Handle) (statements : list gostring) : M (option error) :=
  match statements with
  | [] => ret None
  | stmt :: rest =>
    let stmt := strings.TrimSpace stmt in
    if isEmpty stmt then executeStatements db rest
    else
      r <- Exec db stmt ;;
      match r with
      | inr err => ret (Some (Errorf [Text "failed to execute statement: "; W err]))
      | inl _ => executeStatements db rest
      end
  end.

Definition ExecuteScript (db : Handle) (script : gostring) : M (option error) :=
  let script := strings.TrimSpace script in
  if isEmpty script then ret None
  else
    let statements := strings.Split script semicolon in
    executeStatements db statements.

(** *** Sequential execution, in the words of the specification *)

(** Statements submitted one after the other, up to the first that
    fails. *)
Fixpoint runStatements (db : Handle) (stmts : list gostring) : M (option error) :=
  match stmts with
  | [] => ret None
  | stmt :: rest =>
    r <- Exec db stmt ;;
    match r with
    | inr err => ret (Some (Errorf [Text "failed to execute statement: "; W err]))
    | inl _ => runStatements db rest
    end
  end.

(** All of [stmts] succeed, one after the other, from [st]: the state they
    leave. *)
Fixpoint succeedAll (db : Handle) (stmts : list gostring) (st : state) : option state :=
  match stmts with
  | [] => Some st
  | stmt :: rest =>
    match Exec db stmt st with
    | (inl _, st') => succeedAll db rest st'
    | (inr _, _) => None
    end
  end.

(** The database once the statements [stmts] have been applied to it, one
    after the other, whatever the driver answered. *)
Definition worldAfter (db : Handle) (stmts : list gostring) (w : World) : World :=
  fold_left (fun w stmt => snd (db_Exec db stmt w)) stmts w.

End Program.

Arguments mkState {World Handle} world log.
Arguments world {World Handle} s.
Arguments log {World Handle} s.
Arguments CallOpen {Handle} driver dsn.
Arguments CallPing {Handle} db.
Arguments CallClose {Handle} db.
Arguments CallExec {Handle} db query.
Arguments CallReadFile {Handle} path.
Arguments ret {World Handle A} a st.
Arguments bind {World Handle A B} m k st.
Arguments perform {World Handle A} c op st.
Arguments Exec {World Handle Result} db_Exec db query st.
Arguments executeStatements {World Handle Result} db_Exec db statements st.
Arguments ExecuteScript {World Handle Result} db_Exec db script st.
Arguments Connect {World Handle} sql_Open db_Ping db_Close driver dsn st.
Arguments LoadScript {World Handle} os_ReadFile path st.
Arguments runStatements {World Handle Result} db_Exec db stmts st.
Arguments succeedAll {World Handle Result} db_Exec db stmts st.
Arguments worldAfter {World Handle Result} db_Exec db stmts w.

(** ** Whitespace at the level of bytes *)

(** The UTF-8 encodings of the runes that [unicode.IsSpace] accepts:
    U+0009 to U+000D, U+0020, U+0085, U+00A0, U+1680, U+2000 to U+200A,
    U+2028, U+2029, U+202F, U+205F and U+3000. *)
Definition space_encodings : list gostring :=
  [ [x09]; [x0a]; [x0b]; [x0c]; [x0d]; [x20];
    [xc2; x85]; [xc2; xa0];
    [xe1; x9a; x80];
    [xe2; x80; x80]; [xe2; x80; x81]; [xe2; x80; x82]; [xe2; x80; x83];
    [xe2; x80; x84]; [xe2; x80; x85]; [xe2; x80; x86]; [xe2; x80; x87];
    [xe2; x80; x88]; [xe2; x80; x89]; [xe2; x80; x8a];
    [xe2; x80; xa8]; [xe2; x80; xa9]; [xe2; x80; xaf];
    [xe2; x81; x9f];
    [xe3; x80; x80] ].

Fixpoint eqb_bytes (a b : gostring) : bool :=
  match a, b with
  | [], [] => true
  | x :: a', y :: b' => Byte.eqb x y && eqb_bytes a' b'
  | _, _ => false
  end.

Definition isSpaceEncoding (e : gostring) : bool :=
  existsb (eqb_bytes e) space_encodings.

(** A run of whitespace: encoded space runes, one after the other. *)
Inductive spaces : gostring -> Prop :=
| spaces_nil : spaces []
| spaces_cons e s : In e space_encodings -> spaces s -> spaces (e ++ s).

(** The first rune of [t] is not a space; on the empty string the decoder
    answers [RuneError], which is not one. *)
Definition noLeadingSpace (t : gostring) : Prop :=
  unicode.IsSpace (fst (utf8.DecodeRuneInString t)) = false.

(** The last rune of [t] is not a space. *)
Definition noTrailingSpace (t : gostring) : Prop :=
  unicode.IsSpace (fst (utf8.DecodeLastRuneInString t)) = false.

(** All 256 bytes, for exhaustive checks. *)
Definition all_bytes : list byte :=
  map (fun n => match Byte.of_nat n with Some b => b | None => x00 end) (seq 0 256).

(** ** The statements of a script, in the words of the specification *)

(** The fragments of [s] between the occurrences of [sep], from left to
    right: [s] split on every [sep]. *)
Fixpoint splitOn (sep : byte) (s : gostring) : list gostring :=
  match s with
  | [] => [[]]
  | c :: s' =>
    if Byte.eqb c sep then [] :: splitOn sep s'
    else match splitOn sep s' with
         | piece :: pieces => (c :: piece) :: pieces
         | [] => [[c]]
         end
  end.

(** The script split on every [;], each fragment trimmed, the fragments that
    are empty after trimming removed. *)
Definition statementsOf (script : gostring) : list gostring :=
  filter (fun stmt => negb (isEmpty stmt))
         (map strings.TrimSpace (splitOn semicolon script)).

(** A script made of whitespace and semicolons only: reading from the left,
    every character is the byte [;] or a rune that [unicode.IsSpace]
    accepts. *)
Fixpoint onlySpaceAndSemicolon_loop (fuel : nat) (s : gostring) : bool :=
  match fuel with
  | O => isEmpty s
  | S fuel' =>
    match s with
    | [] => true
    | c :: s' =>
      if Byte.eqb c semicolon then onlySpaceAndSemicolon_loop fuel' s'
      else
        let '(r, size) := utf8.DecodeRuneInString s in
        unicode.IsSpace r && onlySpaceAndSemicolon_loop fuel' (skipn size s)
    end
  end.

Definition onlySpaceAndSemicolon (s : gostring) : bool :=
  onlySpaceAndSemicolon_loop (length s) s.

(** ** Auxiliary definitions *)

(** The last rune of a string that ends with bytes [e], when the backward
    search stops at the first byte of [e]. *)
Definition isBackwardUnit (e : gostring) : bool :=
  match e with
  | [b0] => val b0 <? utf8.RuneSelf
  | [b0; b1] => negb (val b1 <? utf8.RuneSelf) && utf8.RuneStart b0
  | [b0; b1; b2] =>
    negb (val b2 <? utf8.RuneSelf) && negb (utf8.RuneStart b1) && utf8.RuneStart b0
  | _ => false
  end.

(** The first byte of an encoded space. *)
Definition isSpaceLead (b : byte) : bool :=
  existsb (fun e => match e with c :: _ => Byte.eqb b c | [] => false end)
          space_encodings.

(** What the statements of a script look like. *)
Definition wellFormed (stmt : gostring) : Prop :=
  stmt <> [] /\ noLeadingSpace stmt /\ noTrailingSpace stmt /\ ~ In semicolon stmt.

(** ** A small environment *)

(** A database that records the statements applied to it and rejects one
    statement, that may be unreachable and may fail to close; a file system
    with one file. *)
Module Toy.

Record world : Type :=
  mkWorld { reachable : bool; closable : bool; applied : list gostring }.

Definition rejected : gostring := lit "INVALID SQL STATEMENT".

Definition sql_Open (driver dsn : gostring) (w : world) : (unit + error) * world :=
  (inl tt, w).

Definition db_Ping (db : unit) (w : world) : option error * world :=
  (if reachable w then None else Some (Plain (lit "connection refused")), w).

Definition db_Close (db : unit) (w : world) : option error * world :=
  (if closable w then None else Some (Plain (lit "bad connection")), w).

Definition db_Exec (db : unit) (query : gostring) (w : world) : (unit + error) * world :=
  if eqb_bytes query rejected then (inr (Plain (lit "syntax error")), w)
  else (inl tt, mkWorld (reachable w) (closable w) (applied w ++ [query])).

Definition os_ReadFile (path : gostring) (w : world) : (gostring + error) * world :=
  if eqb_bytes path (lit "valid.sql") then (inl (lit "SELECT 1;"), w)
  else (inr (Plain (lit "no such file or directory")), w).

Definition fresh (reachable closable : bool) : state world unit :=
  mkState (mkWorld reachable closable []) [].

End Toy.

(** ** A driver that keeps part of a failed statement *)

(** A table [t] with one column of distinct values, as the list of its
    rows.  The driver knows two statements, both with the conflict clause
    [OR FAIL] of SQLite: the rows are inserted one by one, the statement
    fails at the first row that breaks the constraint, and the rows it
    inserted before that one stay. *)
Module Partial.

Fixpoint insertOrFail (values rows : list Z) : bool * list Z :=
  match values with
  | [] => (true, rows)
  | v :: values' =>
    if existsb (Z.eqb v) rows then (false, rows)
    else insertOrFail values' (rows ++ [v])
  end.

Definition first : gostring := lit "INSERT OR FAIL INTO t VALUES (1)".

Definition second : gostring := lit "INSERT OR FAIL INTO t VALUES (2), (1)".

Definition db_Exec (db : unit) (query : gostring) (rows : list Z)
  : (unit + error) * list Z :=
  let values :=
    if eqb_bytes query first then Some [1]
    else if eqb_bytes query second then Some [2; 1]
    else None in
  match values with
  | Some values =>
    let '(ok, rows') := insertOrFail values rows in
    (if ok then inl tt else inr (Plain (lit "UNIQUE constraint failed: t.id")), rows')
  | None => (inr (Plain (lit "syntax error")), rows)
  end.

Definition script : gostring :=
  lit "INSERT OR FAIL INTO t VALUES (1); INSERT OR FAIL INTO t VALUES (2), (1);".

Definition fresh : state (list Z) unit := mkState [] [].

End Partial.

(** ** cmd/sql-loader: run and main *)

(** The values of the flags once [flag.Parse] has returned. *)
Record flags : Type :=
  mkFlags { showVersion : bool; driver : gostring; dsn : gostring; scriptFile : gostring }.

Inductive stream : Type :=
| Stdout
| Stderr.

(** How [flag.Parse], the first call of [run], ends on the command line of
    the process.  It returns once the flags are set; or it ends the process
    itself, the flag set being [flag.CommandLine], which handles errors by
    exiting: with [os.Exit(0)] after the usage text when help is asked for
    ([-h], [-help]), with [os.Exit(2)] after a message and the usage text
    when an argument is not understood.  Both texts go to the error
    stream. *)
Inductive parse : Type :=
| Parsed (f : flags)
| HelpRequested (usage : gostring)
| BadArguments (message : gostring).

(** How [run] ends: it returns, or the goroutine panics. *)
Inductive outcome : Type :=
| Returned (err : option error)
| Panicked.

(** How the process ends: [os.Exit] or the return of [main] (status 0), or a
    panic. *)
Inductive termination : Type :=
| Exit (code : nat)
| Crash.

(** The errors reached from [e] by [Unwrap], [e] first. *)
Fixpoint chain (e : error) : list error :=
  e :: match e with
       | Plain _ => []
       | Wrapping _ cause => chain cause
       end.

(** The texts the command writes, the operands of [%s] and [%v] in
    place. *)

(** ["sql-loader version %s (commit: %s, built: %s)\n"] *)
Definition versionLine (version commit date : gostring) : gostring :=
  lit "sql-loader version " ++ version ++ lit " (commit: " ++ commit
  ++ lit ", built: " ++ date ++ lit ")" ++ [x0a].

(** ["Loading SQL script from %s into %s database\n"] *)
Definition loadingLine (scriptFile driver : gostring) : gostring :=
  lit "Loading SQL script from " ++ scriptFile ++ lit " into " ++ driver
  ++ lit " database" ++ [x0a].

(** [fmt.Println("Script executed successfully")] *)
Definition successLine : gostring :=
  lit "Script executed successfully" ++ [x0a].

(** ["Warning: failed to close database: %v\n"] *)
Definition closeWarning (closeErr : error) : gostring :=
  lit "Warning: failed to close database: " ++ Error closeErr ++ [x0a].

(** ["Error: %v\n"] *)
Definition errorLine (err : error) : gostring :=
  lit "Error: " ++ Error err ++ [x0a].

Section Command.

Variables World Handle Result : Type.
Variable sql_Open : gostring -> gostring -> World -> (Handle + error) * World.
Variable db_Ping : Handle -> World -> option error * World.
Variable db_Close : Handle -> World -> option error * World.
Variable db_Exec : Handle -> gostring -> World -> (Result + error) * World.
Variable os_ReadFile : gostring -> World -> (gostring + error) * World.

(** The package variables [version], [commit] and [date], set when the
    program is linked. *)
Variables version commit date : gostring.

(** What the process does, in order: it calls the environment and it
    writes text. *)
Inductive event : Type :=
| EnvCall (c : call Handle)
| Written (to : stream) (text : gostring).

Record process : Type := mkProcess { pworld : World; trace : list event }.

Definition P (A : Type) : Type := process -> A * process.

Definition pret {A} (a : A) : P A := fun p => (a, p).

Definition pbind {A B} (m : P A) (k : A -> P B) : P B :=
  fun p => let '(a, p') := m p in k a p'.

Notation "x <-- m ;; k" := (pbind m (fun x => k))
  (at level 61, m at next level, right associativity).

(** A function of the packages [loader] and [database], run inside the
    process: its calls join the trace. *)
Definition lift {A} (m : M World Handle A) : P A :=
  fun p =>
    let '(a, st) := m (mkState (pworld p) []) in
    (a, mkProcess (world st) (trace p ++ map EnvCall (log st))).

Definition write (to : stream) (text : gostring) : P unit :=
  fun p => (tt, mkProcess (pworld p) (trace p ++ [Written to text])).

(** The function deferred by [run]:
    [if closeErr := db.Close(); closeErr != nil { fmt.Fprintf(os.Stderr, ...) }]. *)
Definition closeDeferred (db : Handle) : P unit :=
  closeErr <-- lift (Close World Handle db_Close db) ;;
  match closeErr with
  | Some closeErr => write Stderr (closeWarning closeErr)
  | None => pret tt
  end.

(** [run] of package [main], in the version that loads the script, connects
    and executes it, from the parsed flags on.  The deferred function runs
    when [run] returns, once the result is set.  A nil handle with a nil
    error, which [Connect] never returns, would be dereferenced: the
    goroutine panics. *)
Definition run (f : flags) : P outcome :=
  if showVersion f then
    _ <-- write Stdout (versionLine version commit date) ;;
    pret (Returned None)
  else if isEmpty (dsn f) then
    pret (Returned (Some (Errorf [Text "DSN is required (use -dsn flag)"])))
  else if isEmpty (scriptFile f) then
    pret (Returned (Some (Errorf [Text "script file is required (use -file flag)"])))
  else
    loaded <-- lift (LoadScript os_ReadFile (scriptFile f)) ;;
    match loaded with
    | (_, Some err) =>
      pret (Returned (Some (Errorf [Text "failed to load script: "; W err])))
    | (script, None) =>
      connected <-- lift (Connect sql_Open db_Ping db_Close (driver f) (dsn f)) ;;
      match connected with
      | (_, Some err) =>
        pret (Returned (Some (Errorf [Text "failed to connect to database: "; W err])))
      | (None, None) => pret Panicked
      | (Some db, None) =>
        _ <-- write Stdout (loadingLine (scriptFile f) (driver f)) ;;
        err <-- lift (ExecuteScript db_Exec db script) ;;
        match err with
        | Some err =>
          _ <-- closeDeferred db ;;
          pret (Returned (Some (Errorf [Text "failed to execute script: "; W err])))
        | None =>
          _ <-- write Stdout successLine ;;
          _ <-- closeDeferred db ;;
          pret (Returned None)
        end
      end
    end.

(** [main]: [if err := run(); err != nil { fmt.Fprintf(os.Stderr, "Error: %v\n", err); os.Exit(1) }],
    with what [flag.Parse] does at the start of [run]: when it ends the
    process, [run] does not return and nothing of [main] follows. *)
Definition main (a : parse) : P termination :=
  match a with
  | HelpRequested usage =>
    _ <-- write Stderr usage ;;
    pret (Exit 0)
  | BadArguments message =>
    _ <-- write Stderr message ;;
    pret (Exit 2)
  | Parsed f =>
    r <-- run f ;;
    match r with
    | Returned (Some err) =>
      _ <-- write Stderr (errorLine err) ;;
      pret (Exit 1)
    | Returned None => pret (Exit 0)
    | Panicked => pret Crash
    end
  end.

End Command.

Arguments EnvCall {Handle} c.
Arguments Written {Handle} to text.
Arguments mkProcess {World Handle} pworld trace.
Arguments pworld {World Handle} p.
Arguments trace {World Handle} p.
Arguments pret {World Handle A} a p.
Arguments pbind {World Handle A B} m k p.
Arguments lift {World Handle A} m p.
Arguments write {World Handle} to text p.
Arguments closeDeferred {World Handle} db_Close db p.
Arguments run {World Handle Result} sql_Open db_Ping db_Close db_Exec os_ReadFile
  version commit date f p.
Arguments main {World Handle Result} sql_Open db_Ping db_Close db_Exec os_ReadFile
  version commit date a p.

(** The calls to the environment in a trace, in order. *)
Fixpoint calls {Handle : Type} (t : list (event Handle)) : list (call Handle) :=
  match t with
  | [] => []
  | EnvCall c :: t' => c :: calls t'
  | Written _ _ :: t' => calls t'
  end.

(** The process before the command has done anything. *)
Definition started (reachable closable : bool) : process Toy.world unit :=
  mkProcess (Toy.mkWorld reachable closable []) [].

(** * Facts *)

Import utf8 unicode strings.

Ltac zbool :=
  repeat match goal with
  | H : (_ =? _) = true |- _ => apply Z.eqb_eq in H
  | H : (_ =? _) = false |- _ => apply Z.eqb_neq in H
  | H : (_ <? _) = true |- _ => apply Z.ltb_lt in H
  | H : (_ <? _) = false |- _ => apply Z.ltb_ge in H
  | H : (_ <=? _) = true |- _ => apply Z.leb_le in H
  | H : (_ <=? _) = false |- _ => apply Z.leb_gt in H
  | H : (_ =? _)%nat = true |- _ => apply Nat.eqb_eq in H
  | H : (_ =? _)%nat = false |- _ => apply Nat.eqb_neq in H
  | H : (_ <? _)%nat = true |- _ => apply Nat.ltb_lt in H
  | H : (_ <? _)%nat = false |- _ => apply Nat.ltb_ge in H
  | H : (_ <=? _)%nat = true |- _ => apply Nat.leb_le in H
  | H : (_ <=? _)%nat = false |- _ => apply Nat.leb_gt in H
  end.

Ltac zlia := zbool; lia.

Ltac not_space H :=
  exfalso; injection H as <- _;
  match goal with Hs : IsSpace RuneError = true |- _ => discriminate Hs end.

(** ** Bytes *)

Lemma In_all_bytes (b : byte) : In b all_bytes.
Proof.
  unfold all_bytes. apply in_map_iff. exists (Byte.to_nat b). split.
  - now rewrite Byte.of_to_nat.
  - apply in_seq. pose proof (Byte.to_nat_bounded b). lia.
Qed.

Lemma forall_bytes (P : byte -> bool) :
  forallb P all_bytes = true -> forall b, P b = true.
Proof.
  intros H b. rewrite forallb_forall in H. apply H, In_all_bytes.
Qed.

Lemma eqb_bytes_eq (a b : gostring) : eqb_bytes a b = true <-> a = b.
Proof.
  revert b. induction a as [|x a IH]; intros [|y b]; simpl; split; intros H;
    try discriminate; try reflexivity.
  - apply andb_true_iff in H. destruct H as [H1 H2].
    apply Byte.byte_dec_bl in H1. apply IH in H2. now subst.
  - injection H as -> ->. apply andb_true_iff. split.
    + now apply Byte.byte_dec_lb.
    + now apply IH.
Qed.

Lemma isSpaceEncoding_In (e : gostring) :
  isSpaceEncoding e = true <-> In e space_encodings.
Proof.
  unfold isSpaceEncoding. rewrite existsb_exists. split.
  - intros (x & Hx & He). apply eqb_bytes_eq in He. now subst.
  - intros H. exists e. split; [assumption | now apply eqb_bytes_eq].
Qed.

(** ** Decoding *)

Local Open Scope Z_scope.

Lemma check_width1 :
  forallb (fun b0 =>
    if as_ <=? first b0 then
      if IsSpace (rune1 (first b0) b0) then isSpaceEncoding [b0] else true
    else true) all_bytes = true.
Proof. vm_compute. reflexivity. Qed.

Lemma check_width23 :
  forallb (fun b0 =>
    if as_ <=? first b0 then true
    else forallb (fun b1 =>
      if outside (fst (acceptRanges (Z.shiftr (first b0) 4)))
                 (snd (acceptRanges (Z.shiftr (first b0) 4))) b1 then true
      else if (Z.to_nat (Z.land (first b0) 7) <=? 2)%nat then
        if IsSpace (rune2 b0 b1) then isSpaceEncoding [b0; b1] else true
      else if (Z.to_nat (Z.land (first b0) 7) <=? 3)%nat then
        forallb (fun b2 =>
          if outside locb hicb b2 then true
          else if IsSpace (rune3 b0 b1 b2) then isSpaceEncoding [b0; b1; b2]
               else true) all_bytes
      else
        (* four bytes: the two leading ones already put the rune beyond
           the Basic Multilingual Plane *)
        16 <=? Z.lor (Z.shiftr (Z.shiftl (Z.land (val b0) mask4) 18) 12)
                     (Z.shiftr (Z.shiftl (Z.land (val b1) maskx) 12) 12))
      all_bytes) all_bytes = true.
Proof. vm_compute. reflexivity. Qed.

Lemma check_low_bits :
  forallb (fun b =>
    (Z.shiftr (Z.shiftl (Z.land (val b) maskx) 6) 12 =? 0)
    && (Z.shiftr (Z.land (val b) maskx) 12 =? 0)) all_bytes = true.
Proof. vm_compute. reflexivity. Qed.

Lemma IsSpace_beyond (r : rune) : 0x3000 < r -> IsSpace r = false.
Proof.
  intros H. unfold IsSpace, MaxLatin1, White_Space_above_Latin1.
  destruct (r <=? 255) eqn:E; [zlia|].
  repeat match goal with
  | |- context [?a =? ?b] =>
    let E := fresh in destruct (a =? b) eqn:E; [zlia|]
  | |- context [?a <=? ?b] =>
    let E := fresh in destruct (a <=? b) eqn:E; [|zlia]
  end; try reflexivity; zlia.
Qed.

Lemma rune4_beyond (b0 b1 b2 b3 : byte) :
  16 <= Z.lor (Z.shiftr (Z.shiftl (Z.land (val b0) mask4) 18) 12)
              (Z.shiftr (Z.shiftl (Z.land (val b1) maskx) 12) 12) ->
  IsSpace (rune4 b0 b1 b2 b3) = false.
Proof.
  intros H. apply IsSpace_beyond.
  pose proof (forall_bytes _ check_low_bits b2) as C2.
  pose proof (forall_bytes _ check_low_bits b3) as C3.
  cbv beta in C2, C3.
  apply andb_true_iff in C2, C3. destruct C2 as [C2 _]. destruct C3 as [_ C3].
  apply Z.eqb_eq in C2, C3.
  assert (S : Z.shiftr (rune4 b0 b1 b2 b3) 12
              = Z.lor (Z.shiftr (Z.shiftl (Z.land (val b0) mask4) 18) 12)
                      (Z.shiftr (Z.shiftl (Z.land (val b1) maskx) 12) 12)).
  { unfold rune4. rewrite !Z.shiftr_lor, C2, C3, !Z.lor_0_r. reflexivity. }
  rewrite <- S in H. rewrite Z.shiftr_div_pow2 in H by lia.
  pose proof (Z.mul_div_le (rune4 b0 b1 b2 b3) (2 ^ 12) ltac:(lia)). lia.
Qed.

Lemma decode_space_encoding (s : gostring) (r : rune) (n : nat) :
  DecodeRuneInString s = (r, n) -> IsSpace r = true ->
  exists e y, s = e ++ y /\ In e space_encodings /\ n = length e.
Proof.
  intros H Hs. destruct s as [|b0 t0].
  { simpl in H. not_space H. }
  unfold DecodeRuneInString in H. cbv zeta in H.
  destruct (as_ <=? first b0) eqn:E0.
  { injection H as <- <-. exists [b0], t0. repeat split.
    apply isSpaceEncoding_In.
    pose proof (forall_bytes _ check_width1 b0) as C. cbv beta in C.
    now rewrite E0, Hs in C. }
  pose proof (forall_bytes _ check_width23 b0) as C. cbv beta in C. rewrite E0 in C.
  destruct (length (b0 :: t0) <? _)%nat; [not_space H|].
  destruct t0 as [|b1 t1]; [not_space H|].
  apply forall_bytes with (b := b1) in C.
  destruct (outside _ _ b1); [not_space H|].
  destruct (_ <=? 2)%nat.
  { injection H as <- <-. exists [b0; b1], t1. repeat split.
    apply isSpaceEncoding_In. now rewrite Hs in C. }
  destruct (_ <=? 3)%nat.
  - destruct t1 as [|b2 t2]; [not_space H|].
    apply forall_bytes with (b := b2) in C.
    destruct (outside _ _ b2); [not_space H|].
    injection H as <- <-. exists [b0; b1; b2], t2. repeat split.
    apply isSpaceEncoding_In. now rewrite Hs in C.
  - destruct t1 as [|b2 t2]; [not_space H|].
    destruct (outside _ _ b2); [not_space H|].
    destruct t2 as [|b3 t3]; [not_space H|].
    destruct (outside _ _ b3); [not_space H|].
    injection H as <- <-. apply Z.leb_le in C.
    rewrite (rune4_beyond b0 b1 b2 b3 C) in Hs. discriminate Hs.
Qed.

Lemma space_encoding_decode (e y : gostring) :
  In e space_encodings ->
  exists r, DecodeRuneInString (e ++ y) = (r, length e) /\ IsSpace r = true.
Proof.
  intros H. unfold space_encodings in H.
  repeat (destruct H as [<- | H]; [eexists; split; [vm_compute; reflexivity | reflexivity]|]).
  destruct H.
Qed.

Lemma slice_app_end (x e : gostring) :
  slice (x ++ e) (length x) (length (x ++ e)) = e.
Proof.
  unfold slice. rewrite length_app, skipn_app, skipn_all, Nat.sub_diag. simpl.
  replace (length x + length e - length x)%nat with (length e) by lia.
  apply firstn_all.
Qed.

Lemma slice_from_0 (s : gostring) (j : nat) : slice s 0 j = firstn j s.
Proof. unfold slice. now rewrite Nat.sub_0_r. Qed.

Lemma slice_to_end (s : gostring) (i : nat) : slice s i (length s) = skipn i s.
Proof.
  unfold slice. rewrite <- length_skipn. apply firstn_all.
Qed.

Lemma lastStart_stop (fuel : nat) (s : gostring) (start lim : Z) :
  lim <= start -> RuneStart (at_ s (Z.to_nat start)) = true ->
  lastStart (S fuel) s start lim = start.
Proof.
  intros Hl Hr. simpl. rewrite Hr. destruct (start <? lim) eqn:E; [zlia | reflexivity].
Qed.

Lemma lastStart_next (fuel : nat) (s : gostring) (start lim : Z) :
  lim <= start -> RuneStart (at_ s (Z.to_nat start)) = false ->
  lastStart (S fuel) s start lim = lastStart fuel s (start - 1) lim.
Proof.
  intros Hl Hr. simpl. rewrite Hr. destruct (start <? lim) eqn:E; [zlia | reflexivity].
Qed.

Lemma at_app_back (x e : gostring) (k : nat) (i : Z) :
  (k < length e)%nat ->
  i = Z.of_nat (length (x ++ e)) - 1 - Z.of_nat k ->
  at_ (x ++ e) (Z.to_nat i) = at_ (rev e) k.
Proof.
  intros Hk ->. unfold at_. rewrite length_app.
  replace (Z.to_nat (Z.of_nat (length x + length e) - 1 - Z.of_nat k))
    with (length x + (length e - S k))%nat by lia.
  rewrite app_nth2_plus. now rewrite rev_nth.
Qed.

Lemma DecodeLast_tail (x e : gostring) (r : rune) (size : nat) :
  DecodeRuneInString e = (r, size) ->
  forall start : Z,
    start = Z.of_nat (length x) ->
    (let '(r, size) :=
       DecodeRuneInString (slice (x ++ e) (Z.to_nat (if start <? 0 then 0 else start))
                                 (length (x ++ e))) in
     if negb ((if start <? 0 then 0 else start) + Z.of_nat size
              =? Z.of_nat (length (x ++ e)))
     then (RuneError, 1%nat) else (r, size))
    = if (size =? length e)%nat then (r, size) else (RuneError, 1%nat).
Proof.
  intros D start ->.
  destruct (Z.of_nat (length x) <? 0) eqn:E; [zlia|].
  rewrite Nat2Z.id, slice_app_end, D, length_app.
  destruct (size =? length e)%nat eqn:E1; destruct (_ =? _) eqn:E2; try reflexivity; zlia.
Qed.

Lemma DecodeLast_app (x e : gostring) :
  isBackwardUnit e = true ->
  DecodeLastRuneInString (x ++ e) =
    if (length e =? 1)%nat then (val (at_ e 0), 1%nat)
    else let '(r, size) := DecodeRuneInString e in
         if (size =? length e)%nat then (r, size) else (RuneError, 1%nat).
Proof.
  intros H. unfold DecodeLastRuneInString. cbv zeta.
  assert (L : Z.of_nat (length (x ++ e)) = Z.of_nat (length x) + Z.of_nat (length e))
    by (rewrite length_app; lia).
  destruct e as [|b0 [|b1 [|b2 [|b3 e]]]]; try discriminate H; simpl in H, L.
  - (* one byte *)
    rewrite (at_app_back x [b0] 0) by (simpl; lia).
    destruct (_ =? 0) eqn:E; [zlia|].
    simpl. unfold at_ at 1. simpl. now rewrite H.
  - (* two bytes *)
    apply andb_true_iff in H. destruct H as [H1 H0]. apply negb_true_iff in H1.
    rewrite (at_app_back x [b0; b1] 0) by (simpl; lia).
    destruct (_ =? 0) eqn:E; [zlia|].
    change (at_ (rev [b0; b1]) 0) with b1. rewrite H1.
    unfold UTFMax.
    rewrite lastStart_stop;
      [| lia | rewrite (at_app_back x [b0; b1] 1) by (simpl; lia); exact H0].
    destruct (DecodeRuneInString [b0; b1]) as [r size] eqn:D.
    rewrite (DecodeLast_tail x [b0; b1] r size D) by lia. reflexivity.
  - (* three bytes *)
    apply andb_true_iff in H. destruct H as [H H0].
    apply andb_true_iff in H. destruct H as [H2 H1].
    apply negb_true_iff in H2, H1.
    rewrite (at_app_back x [b0; b1; b2] 0) by (simpl; lia).
    destruct (_ =? 0) eqn:E; [zlia|].
    change (at_ (rev [b0; b1; b2]) 0) with b2. rewrite H2.
    unfold UTFMax.
    rewrite lastStart_next;
      [| lia | rewrite (at_app_back x [b0; b1; b2] 1) by (simpl; lia); exact H1].
    rewrite lastStart_stop;
      [| lia | rewrite (at_app_back x [b0; b1; b2] 2) by (simpl; lia); exact H0].
    destruct (DecodeRuneInString [b0; b1; b2]) as [r size] eqn:D.
    rewrite (DecodeLast_tail x [b0; b1; b2] r size D) by lia. reflexivity.
Qed.

Lemma space_encoding_decode_last (x e : gostring) :
  In e space_encodings ->
  exists r, DecodeLastRuneInString (x ++ e) = (r, length e) /\ IsSpace r = true.
Proof.
  intros H. unfold space_encodings in H.
  repeat (destruct H as [<- | H];
    [rewrite DecodeLast_app by reflexivity;
     eexists; split; [vm_compute; reflexivity | reflexivity]|]).
  destruct H.
Qed.

Lemma check_ascii :
  forallb (fun b => if val b <? RuneSelf then
                      if IsSpace (val b) then isSpaceEncoding [b] else true
                    else true) all_bytes = true.
Proof. vm_compute. reflexivity. Qed.

Lemma at_last (s : gostring) :
  s <> [] -> s = removelast s ++ [at_ s (length s - 1)].
Proof.
  intros H. destruct (exists_last H) as (l & a & ->).
  rewrite removelast_last, last_length. f_equal. f_equal.
  unfold at_. replace (S (length l) - 1)%nat with (length l) by lia.
  now rewrite nth_middle.
Qed.

Lemma decode_last_space_encoding (s : gostring) (r : rune) (n : nat) :
  DecodeLastRuneInString s = (r, n) -> IsSpace r = true ->
  exists x e, s = x ++ e /\ In e space_encodings /\ n = length e.
Proof.
  intros H Hs. unfold DecodeLastRuneInString in H. cbv zeta in H.
  destruct (_ =? 0) eqn:E0; [not_space H|].
  destruct (_ <? RuneSelf) eqn:E1.
  - injection H as <- <-.
    replace (Z.to_nat (Z.of_nat (length s) - 1)) with (length s - 1)%nat in * by lia.
    exists (removelast s), [at_ s (length s - 1)]. repeat split.
    + apply at_last. intros ->. simpl in E0. zlia.
    + apply isSpaceEncoding_In.
      pose proof (forall_bytes _ check_ascii (at_ s (length s - 1))) as C.
      cbv beta in C. now rewrite E1, Hs in C.
  - set (start := if _ <? 0 then 0 else _) in H.
    assert (0 <= start) by (subst start; destruct (_ <? 0) eqn:E; zlia).
    rewrite slice_to_end in H.
    destruct (DecodeRuneInString _) as [r' size] eqn:D.
    destruct (start + Z.of_nat size =? _) eqn:E2; cbn [negb] in H; [|not_space H].
    injection H as <- <-.
    destruct (decode_space_encoding _ _ _ D Hs) as (e & y & Hey & He & Hn).
    assert (y = []) as ->.
    { apply (f_equal (@length byte)) in Hey.
      rewrite length_skipn, length_app in Hey. apply length_zero_iff_nil. zlia. }
    rewrite app_nil_r in Hey. exists (firstn (Z.to_nat start) s), e. repeat split; try assumption.
    rewrite <- Hey. symmetry. apply firstn_skipn.
Qed.

(** ** Trimming *)

Lemma space_encoding_nonempty (e : gostring) : In e space_encodings -> e <> [].
Proof.
  intros H ->. apply isSpaceEncoding_In in H. discriminate H.
Qed.

Lemma space_encoding_length (e : gostring) :
  In e space_encodings -> (1 <= length e <= 3)%nat.
Proof.
  intros H. unfold space_encodings in H.
  repeat (destruct H as [<- | H]; [simpl; lia|]). destruct H.
Qed.

Lemma space_encoding_no_semicolon (e : gostring) :
  In e space_encodings -> ~ In semicolon e.
Proof.
  intros H. unfold space_encodings in H.
  repeat (destruct H as [<- | H];
          [simpl; intros D; repeat (destruct D as [D | D]; [discriminate D|]); exact D|]).
  destruct H.
Qed.

Lemma spaces_app (a b : gostring) : spaces a -> spaces b -> spaces (a ++ b).
Proof.
  induction 1 as [|e s He Hs IH]; intros Hb; [assumption|].
  rewrite <- app_assoc. constructor; auto.
Qed.

Lemma spaces_one (e : gostring) : In e space_encodings -> spaces e.
Proof.
  intros H. rewrite <- (app_nil_r e). constructor; [assumption | constructor].
Qed.

Lemma spaces_no_semicolon (p : gostring) : spaces p -> ~ In semicolon p.
Proof.
  induction 1 as [|e s He Hs IH]; [intros []|].
  intros H. apply in_app_or in H. destruct H as [H | H]; [|auto].
  now apply (space_encoding_no_semicolon e).
Qed.

(** *** The forward scan *)

Lemma indexFunc_range_spec (fuel : nat) :
  forall (rest : gostring) (i : nat),
    (length rest <= fuel)%nat ->
    match indexFunc_range IsSpace false fuel rest i with
    | None => spaces rest
    | Some j => exists p t, rest = p ++ t /\ spaces p /\ j = (i + length p)%nat
                            /\ t <> [] /\ noLeadingSpace t
    end.
Proof.
  induction fuel as [|fuel IH]; intros rest i Hlen.
  - destruct rest; [constructor | simpl in Hlen; lia].
  - cbn [indexFunc_range]. destruct rest as [|b rest']; [constructor|].
    remember (b :: rest') as rest eqn:Er.
    destruct (DecodeRuneInString rest) as [r size] eqn:D.
    destruct (IsSpace r) eqn:Hs; cbn [Bool.eqb].
    + destruct (decode_space_encoding _ _ _ D Hs) as (e & y & Hey & He & Hn).
      assert (Hsk : skipn size rest = y).
      { rewrite Hey, Hn, skipn_app, skipn_all, Nat.sub_diag. reflexivity. }
      rewrite Hsk.
      pose proof (space_encoding_length e He) as Le.
      assert (Ly : (length y <= fuel)%nat).
      { apply (f_equal (@length byte)) in Hey. rewrite length_app in Hey. lia. }
      specialize (IH y (i + size)%nat Ly).
      destruct (indexFunc_range IsSpace false fuel y (i + size)) as [j|].
      * destruct IH as (p & t & Hy & Hp & Hj & Ht & Hl).
        exists (e ++ p), t. rewrite Hey, Hy, app_assoc. repeat split; auto.
        -- apply spaces_app; [now apply spaces_one | assumption].
        -- rewrite length_app. lia.
      * rewrite Hey. now constructor.
    + exists [], rest. repeat split.
      * constructor.
      * simpl. lia.
      * subst rest. discriminate.
      * unfold noLeadingSpace. now rewrite D.
Qed.

Lemma TrimLeftFunc_spec (s : gostring) :
  exists p, s = p ++ TrimLeftFunc s IsSpace /\ spaces p
            /\ noLeadingSpace (TrimLeftFunc s IsSpace).
Proof.
  unfold TrimLeftFunc, indexFunc.
  pose proof (indexFunc_range_spec (length s) s 0 (le_n _)) as H.
  destruct (indexFunc_range IsSpace false (length s) s 0) as [j|].
  - destruct H as (p & t & Hs & Hp & Hj & Ht & Hl). simpl in Hj. subst j.
    exists p. rewrite slice_to_end.
    assert (skipn (length p) s = t) as ->.
    { rewrite Hs, skipn_app, skipn_all, Nat.sub_diag. reflexivity. }
    auto.
  - exists s. rewrite app_nil_r. repeat split; auto.
Qed.

Lemma decode_size_pos (s : gostring) :
  s <> [] -> (1 <= snd (DecodeRuneInString s))%nat.
Proof.
  intros H. destruct s as [|b0 t0]; [contradiction|].
  unfold DecodeRuneInString. cbv zeta.
  repeat match goal with
  | |- context [if ?c then _ else _] => destruct c
  | |- context [match ?l with [] => _ | _ :: _ => _ end] => destruct l
  end; simpl; lia.
Qed.

Lemma decode_app_stable (u q : gostring) (r : rune) (size : nat) :
  DecodeRuneInString u = (r, size) -> (2 <= size)%nat ->
  DecodeRuneInString (u ++ q) = (r, size).
Proof.
  intros H Hsz. destruct u as [|b0 t0]; [simpl in H; injection H as <- <-; lia|].
  rewrite <- app_comm_cons.
  unfold DecodeRuneInString in *. cbv zeta in *.
  destruct (as_ <=? first b0); [injection H as <- <-; lia|].
  destruct (length (b0 :: t0) <? _)%nat eqn:E1; [injection H as <- <-; lia|].
  destruct (length (b0 :: t0 ++ q) <? _)%nat eqn:E2.
  { simpl in E1, E2. rewrite length_app in E2. zlia. }
  destruct t0 as [|b1 t1]; [injection H as <- <-; lia|].
  rewrite <- app_comm_cons.
  destruct (outside _ _ b1); [assumption|].
  destruct (_ <=? 2)%nat; [assumption|].
  destruct t1 as [|b2 t2]; [injection H as <- <-; lia|].
  rewrite <- app_comm_cons.
  destruct (outside _ _ b2); [assumption|].
  destruct (_ <=? 3)%nat; [assumption|].
  destruct t2 as [|b3 t3]; [injection H as <- <-; lia|].
  rewrite <- app_comm_cons. assumption.
Qed.

Lemma check_lead :
  forallb (fun b => (as_ <=? first b) || (RuneSelf <=? val b)) all_bytes = true.
Proof. vm_compute. reflexivity. Qed.

Lemma decode_wide_lead (b0 : byte) (t : gostring) (r : rune) (size : nat) :
  DecodeRuneInString (b0 :: t) = (r, size) -> (2 <= size)%nat -> RuneSelf <= val b0.
Proof.
  intros H Hsz. unfold DecodeRuneInString in H. cbv zeta in H.
  pose proof (forall_bytes _ check_lead b0) as C. cbv beta in C.
  destruct (as_ <=? first b0); [injection H as <- <-; lia|].
  simpl in C. zlia.
Qed.

Lemma check_second :
  forallb (fun b0 =>
    forallb (fun e =>
      match e with
      | b1 :: _ =>
        (as_ <=? first b0)
        || outside (fst (acceptRanges (Z.shiftr (first b0) 4)))
                   (snd (acceptRanges (Z.shiftr (first b0) 4))) b1
      | [] => true
      end) space_encodings) all_bytes = true.
Proof. vm_compute. reflexivity. Qed.

(** A byte followed by whitespace is decoded alone. *)
Lemma decode_before_spaces (b : byte) (q : gostring) :
  spaces q -> snd (DecodeRuneInString (b :: q)) = 1%nat.
Proof.
  intros Hq. unfold DecodeRuneInString. cbv zeta.
  pose proof (forall_bytes _ check_second b) as C. cbv beta in C.
  destruct (as_ <=? first b) eqn:E0; [reflexivity|].
  destruct (length (b :: q) <? _)%nat; [reflexivity|].
  destruct Hq as [|e s He Hs]; [reflexivity|].
  rewrite forallb_forall in C. specialize (C e He).
  destruct e as [|b1 e']; [now apply space_encoding_nonempty in He|].
  rewrite <- app_comm_cons. simpl in C. now rewrite C.
Qed.

Lemma lastStart_le (fuel : nat) (s : gostring) :
  forall start lim, lastStart fuel s start lim <= start.
Proof.
  induction fuel as [|fuel IH]; intros start lim; simpl; [lia|].
  destruct (start <? lim); [lia|].
  destruct (RuneStart _); [lia|].
  specialize (IH (start - 1) lim). lia.
Qed.

Lemma DecodeLast_shape (s : gostring) (r : rune) (size : nat) :
  s <> [] -> DecodeLastRuneInString s = (r, size) ->
  (1 <= size <= length s)%nat
  /\ (size = 1%nat \/ DecodeRuneInString (skipn (length s - size) s) = (r, size)).
Proof.
  intros Hne H.
  assert (L : (1 <= length s)%nat) by (destruct s; [contradiction | simpl; lia]).
  unfold DecodeLastRuneInString in H. cbv zeta in H.
  destruct (_ =? 0) eqn:E0; [zlia|].
  destruct (_ <? RuneSelf); [injection H as <- <-; auto|].
  pose proof (lastStart_le UTFMax s (Z.of_nat (length s) - 1 - 1)
                (Z.max (Z.of_nat (length s) - Z.of_nat UTFMax) 0)) as Hle.
  set (start := if _ <? 0 then 0 else _) in H.
  assert (Hst : 0 <= start < Z.of_nat (length s))
    by (subst start; destruct (_ <? 0) eqn:E; zlia).
  rewrite slice_to_end in H.
  destruct (DecodeRuneInString _) as [r' size'] eqn:D.
  destruct (start + Z.of_nat size' =? _) eqn:E2; cbn [negb] in H;
    injection H as <- <-; [|auto].
  assert (Hpos : (1 <= size')%nat).
  { change size' with (snd (r', size')). rewrite <- D. apply decode_size_pos.
    intros Hn. apply (f_equal (@length byte)) in Hn. rewrite length_skipn in Hn.
    simpl in Hn. lia. }
  split; [zlia|]. right.
  replace (length s - size')%nat with (Z.to_nat start) by zlia. assumption.
Qed.

(** *** The backward scan *)

Lemma firstn_app_exact (x e : gostring) (i : nat) (s : gostring) :
  (i <= length s)%nat -> firstn i s = x ++ e -> firstn (i - length e) s = x.
Proof.
  intros Hi H.
  assert (Hl : length (firstn i s) = (length x + length e)%nat)
    by (rewrite H; apply length_app).
  rewrite length_firstn in Hl.
  replace (i - length e)%nat with (Nat.min (length x) i) by lia.
  rewrite <- firstn_firstn, H, firstn_app, firstn_all, Nat.sub_diag. simpl.
  apply app_nil_r.
Qed.

Lemma skipn_cons_nth (t : gostring) :
  forall j : nat, (j < length t)%nat -> skipn j t = nth j t x00 :: skipn (S j) t.
Proof.
  induction t as [|c t IH]; intros j Hj; [simpl in Hj; lia|].
  destruct j as [|j]; [reflexivity|].
  simpl in Hj. apply (IH j). lia.
Qed.

Lemma lastIndexFunc_loop_spec (fuel : nat) (s : gostring) :
  forall i : nat,
    (i <= fuel)%nat -> (i <= length s)%nat ->
    match lastIndexFunc_loop IsSpace false fuel s i with
    | None => spaces (firstn i s)
    | Some j => exists t q r size,
        firstn i s = t ++ q /\ spaces q /\ t <> []
        /\ DecodeLastRuneInString t = (r, size) /\ IsSpace r = false
        /\ j = (length t - size)%nat
    end.
Proof.
  induction fuel as [|fuel IH]; intros i Hf Hi.
  - replace i with 0%nat by lia. constructor.
  - cbn [lastIndexFunc_loop]. destruct (i =? 0)%nat eqn:E0.
    { zbool. subst i. constructor. }
    rewrite slice_from_0.
    destruct (DecodeLastRuneInString (firstn i s)) as [r size] eqn:D.
    destruct (IsSpace r) eqn:Hs; cbn [Bool.eqb].
    + destruct (decode_last_space_encoding _ _ _ D Hs) as (x & e & Hxe & He & Hn).
      pose proof (space_encoding_length e He) as Le.
      pose proof (firstn_app_exact _ _ _ _ Hi Hxe) as Hx. rewrite <- Hn in Hx.
      assert (Hi' : (i - size <= fuel)%nat) by zlia.
      assert (Hi'' : (i - size <= length s)%nat) by lia.
      specialize (IH (i - size)%nat Hi' Hi'').
      destruct (lastIndexFunc_loop IsSpace false fuel s (i - size)) as [j|].
      * destruct IH as (t & q & r' & size' & Ht & Hq & Hne & Hd & Hr & Hj).
        exists t, (q ++ e), r', size'. rewrite Hxe, <- Hx, Ht, app_assoc.
        repeat split; auto. apply spaces_app; [assumption | now apply spaces_one].
      * rewrite Hxe, <- Hx. apply spaces_app; [assumption | now apply spaces_one].
    + exists (firstn i s), [], r, size. rewrite app_nil_r. repeat split; auto.
      * constructor.
      * intros Hn. apply (f_equal (@length byte)) in Hn.
        rewrite length_firstn in Hn. simpl in Hn. zlia.
      * rewrite length_firstn. lia.
Qed.

Lemma TrimRightFunc_spec (s : gostring) :
  exists q, s = TrimRightFunc s IsSpace ++ q /\ spaces q
            /\ noTrailingSpace (TrimRightFunc s IsSpace).
Proof.
  unfold TrimRightFunc, lastIndexFunc.
  pose proof (lastIndexFunc_loop_spec (length s) s (length s) (le_n _) (le_n _)) as H.
  rewrite firstn_all in H.
  destruct (lastIndexFunc_loop IsSpace false (length s) s (length s)) as [j|].
  - destruct H as (t & q & r & size & Hs & Hq & Hne & Hd & Hr & Hj).
    destruct (DecodeLast_shape t r size Hne Hd) as [Hsz Hfw].
    assert (Hsk : skipn j s = skipn j t ++ q).
    { rewrite Hs, skipn_app. replace (j - length t)%nat with 0%nat by lia. reflexivity. }
    assert (Hat : skipn j t = at_ s j :: skipn (S j) t).
    { unfold at_. rewrite Hs, app_nth1 by lia. apply skipn_cons_nth. lia. }
    assert (Hres : forall k, (j + k)%nat = length t -> slice s 0 (j + k) = t).
    { intros k Hk. rewrite slice_from_0, Hk, Hs, firstn_app, firstn_all, Nat.sub_diag.
      simpl. apply app_nil_r. }
    assert (Hgoal : forall res, res = t ->
              exists q0, s = res ++ q0 /\ spaces q0 /\ noTrailingSpace res).
    { intros res ->. exists q. repeat split; auto. unfold noTrailingSpace. now rewrite Hd. }
    apply Hgoal.
    destruct (RuneSelf <=? val (at_ s j)) eqn:E.
    + rewrite slice_to_end, Hsk.
      destruct Hfw as [-> | Hfw].
      * assert (Hone : skipn (S j) t = []).
        { apply length_zero_iff_nil. rewrite length_skipn. lia. }
        rewrite Hat, Hone. simpl app.
        pose proof (decode_before_spaces (at_ s j) q Hq) as W.
        destruct (DecodeRuneInString (at_ s j :: q)) as [r' wid]. simpl in W. subst wid.
        apply Hres. lia.
      * destruct (Nat.eq_dec size 1) as [-> | Hn1].
        -- assert (Hone : skipn (S j) t = []).
           { apply length_zero_iff_nil. rewrite length_skipn. lia. }
           rewrite Hat, Hone. simpl app.
           pose proof (decode_before_spaces (at_ s j) q Hq) as W.
           destruct (DecodeRuneInString (at_ s j :: q)) as [r' wid]. simpl in W. subst wid.
           apply Hres. lia.
        -- rewrite <- Hj in Hfw.
           rewrite (decode_app_stable _ q _ _ Hfw) by lia.
           apply Hres. lia.
    + apply Hres. destruct Hfw as [-> | Hfw]; [lia|].
      destruct (Nat.eq_dec size 1) as [-> | Hn1]; [lia|].
      rewrite <- Hj, Hat in Hfw.
      apply decode_wide_lead in Hfw; [zlia | lia].
  - exists s. repeat split; auto.
Qed.

Lemma check_asciiSpace :
  forallb (fun c =>
    if val c <? RuneSelf then
      (as_ <=? first c) && (rune1 (first c) c =? val c)
      && Bool.eqb (IsSpace (val c)) (asciiSpace c)
      && Bool.eqb (asciiSpace c) (isSpaceEncoding [c])
    else true) all_bytes = true.
Proof. vm_compute. reflexivity. Qed.

Lemma ascii_facts (c : byte) :
  val c < RuneSelf ->
  (forall t, DecodeRuneInString (c :: t) = (val c, 1%nat))
  /\ IsSpace (val c) = asciiSpace c
  /\ isSpaceEncoding [c] = asciiSpace c.
Proof.
  intros H. pose proof (forall_bytes _ check_asciiSpace c) as C. cbv beta in C.
  destruct (val c <? RuneSelf) eqn:E; [|zlia].
  apply andb_true_iff in C. destruct C as [C C4].
  apply andb_true_iff in C. destruct C as [C C3].
  apply andb_true_iff in C. destruct C as [C1 C2].
  apply Bool.eqb_prop in C3, C4. apply Z.eqb_eq in C2.
  repeat split; auto.
  intros t. unfold DecodeRuneInString. cbv zeta. now rewrite C1, C2.
Qed.

Lemma ascii_nonspace_leading (c : byte) (t : gostring) :
  val c < RuneSelf -> asciiSpace c = false -> noLeadingSpace (c :: t).
Proof.
  intros H Hn. destruct (ascii_facts c H) as (D & S & _).
  unfold noLeadingSpace. rewrite D. change (IsSpace (val c) = false). now rewrite S.
Qed.

Lemma ascii_nonspace_trailing (c : byte) (x : gostring) :
  val c < RuneSelf -> asciiSpace c = false -> noTrailingSpace (x ++ [c]).
Proof.
  intros H Hn. destruct (ascii_facts c H) as (_ & S & _).
  unfold noTrailingSpace. rewrite DecodeLast_app.
  - change (IsSpace (val c) = false). now rewrite S.
  - now apply Z.ltb_lt.
Qed.

Lemma asciiSpace_encoding (c : byte) :
  val c < RuneSelf -> asciiSpace c = true -> In [c] space_encodings.
Proof.
  intros H Hs. destruct (ascii_facts c H) as (_ & _ & E).
  apply isSpaceEncoding_In. congruence.
Qed.

(** A string without a leading space keeps none when cut short. *)
Lemma noLeadingSpace_prefix (t q : gostring) :
  noLeadingSpace (t ++ q) -> noLeadingSpace t.
Proof.
  unfold noLeadingSpace. intros H.
  destruct (DecodeRuneInString t) as [r n] eqn:D. simpl.
  destruct (IsSpace r) eqn:Hs; [|reflexivity].
  destruct (decode_space_encoding _ _ _ D Hs) as (e & y & -> & He & _).
  destruct (space_encoding_decode e (y ++ q) He) as (r' & D' & Hs').
  rewrite <- app_assoc, D' in H. simpl in H. congruence.
Qed.

(** *** The ASCII scans of TrimSpace *)

Lemma scanStart_spec (rest : gostring) :
  forall start : nat,
  exists p t, rest = p ++ t /\ spaces p /\
    match scanStart rest start with
    | Found j => j = (start + length p)%nat /\
                 (t = [] \/ exists c t', t = c :: t' /\ val c < RuneSelf /\ asciiSpace c = false)
    | NonASCII j => j = (start + length p)%nat /\ t <> []
    end.
Proof.
  induction rest as [|c rest IH]; intros start.
  - exists [], []. simpl. split; [reflexivity|]. split; [constructor|]. split; [lia | auto].
  - cbn [scanStart]. destruct (RuneSelf <=? val c) eqn:E.
    + exists [], (c :: rest). split; [reflexivity|]. split; [constructor|].
      split; [simpl; lia | easy].
    + destruct (asciiSpace c) eqn:Ea; cbn [negb].
      * destruct (IH (S start)) as (p & t & Hr & Hp & Hm).
        exists ([c] ++ p), t. split; [now rewrite Hr|]. split.
        -- constructor; [apply asciiSpace_encoding; [zlia | assumption] | assumption].
        -- destruct (scanStart rest (S start)); rewrite length_app; simpl;
             destruct Hm as [-> Hm]; split; auto; lia.
      * exists [], (c :: rest). split; [reflexivity|]. split; [constructor|].
        split; [simpl; lia|].
        right. exists c, rest. repeat split; auto. zlia.
Qed.

Lemma firstn_snoc_at (s : gostring) (k : nat) :
  (1 <= k <= length s)%nat -> firstn k s = firstn (k - 1) s ++ [at_ s (k - 1)].
Proof.
  intros H. rewrite <- (firstn_skipn (k - 1) s) at 1.
  rewrite firstn_app, firstn_firstn, length_firstn.
  replace (Nat.min k (k - 1)) with (k - 1)%nat by lia.
  replace (k - Nat.min (k - 1) (length s))%nat with 1%nat by lia.
  f_equal. rewrite skipn_cons_nth by lia. reflexivity.
Qed.

Lemma scanStop_spec (fuel : nat) (s : gostring) :
  forall stop : nat,
  (fuel <= stop <= length s)%nat ->
  exists q, spaces q /\
    match scanStop fuel s stop with
    | Found j => firstn stop s = firstn j s ++ q /\ (stop - fuel <= j <= stop)%nat /\
                 (j = (stop - fuel)%nat \/
                  (1 <= j)%nat /\ val (at_ s (j - 1)) < RuneSelf
                  /\ asciiSpace (at_ s (j - 1)) = false)
    | NonASCII j => firstn stop s = firstn j s ++ q /\ (stop - fuel < j <= stop)%nat
    end.
Proof.
  induction fuel as [|fuel IH]; intros stop Hb.
  - exists []. simpl. rewrite app_nil_r. split; [constructor|]. split; [reflexivity|].
    split; [lia | left; lia].
  - cbn [scanStop]. destruct (RuneSelf <=? val (at_ s (stop - 1))) eqn:E.
    + exists []. rewrite app_nil_r. split; [constructor|]. split; [reflexivity | lia].
    + destruct (asciiSpace (at_ s (stop - 1))) eqn:Ea; cbn [negb].
      * destruct (IH (stop - 1)%nat ltac:(lia)) as (q & Hq & Hm).
        exists (q ++ [at_ s (stop - 1)]). split.
        { apply spaces_app; [assumption|]. apply spaces_one.
          apply asciiSpace_encoding; [zlia | assumption]. }
        rewrite (firstn_snoc_at s stop) by lia.
        destruct (scanStop fuel s (stop - 1)) as [j | j].
        -- destruct Hm as (H1 & H2 & H3). rewrite H1, app_assoc.
           repeat split; try lia. destruct H3 as [-> | H3]; [left; lia | right; assumption].
        -- destruct Hm as (H1 & H2). rewrite H1, app_assoc. repeat split; lia.
      * exists []. rewrite app_nil_r. split; [constructor|]. split; [reflexivity|].
        split; [lia|].
        right. repeat split; [lia | zlia | assumption].
Qed.

(** *** TrimSpace *)

Theorem TrimSpace_spec (s : gostring) :
  exists p q, s = p ++ TrimSpace s ++ q /\ spaces p /\ spaces q
              /\ noLeadingSpace (TrimSpace s) /\ noTrailingSpace (TrimSpace s).
Proof.
  unfold TrimSpace.
  destruct (scanStart_spec s 0%nat) as (p & t & Hs & Hp & Hm).
  assert (Hsk : skipn (length p) s = t).
  { rewrite Hs, skipn_app, skipn_all, Nat.sub_diag. reflexivity. }
  destruct (scanStart s 0) as [start | start]; simpl in Hm.
  - destruct Hm as [-> Ht].
    assert (Hlead : forall u v, t = u ++ v -> noLeadingSpace u).
    { intros u v Huv. destruct Ht as [-> | (c & t' & -> & Hc & Ha)].
      - symmetry in Huv. apply app_eq_nil in Huv. destruct Huv as [-> _]. reflexivity.
      - destruct u as [|c' u]; [reflexivity|].
        injection Huv as <- _. now apply ascii_nonspace_leading. }
    assert (Hlen : length s = (length p + length t)%nat) by (rewrite Hs; apply length_app).
    destruct (scanStop_spec (length s - length p) s (length s) ltac:(lia)) as (q & Hq & Hm).
    rewrite firstn_all in Hm.
    assert (Hcut : forall stop, (length p <= stop)%nat ->
              slice s (length p) stop = firstn (stop - length p) t
              /\ firstn stop s = p ++ firstn (stop - length p) t).
    { intros stop Hst. unfold slice. rewrite Hsk. split; [reflexivity|].
      rewrite Hs at 1. rewrite firstn_app.
      rewrite firstn_all2 by lia. reflexivity. }
    destruct (scanStop _ s (length s)) as [stop | stop].
    + destruct Hm as (H1 & H2 & H3).
      destruct (Hcut stop ltac:(lia)) as [Hsl Hfs].
      exists p, q. rewrite Hsl. repeat split; auto.
      * rewrite app_assoc, <- Hfs. assumption.
      * apply (Hlead _ (skipn (stop - length p) t)). symmetry. apply firstn_skipn.
      * destruct (Nat.eq_dec stop (length p)) as [-> | Hn].
        -- rewrite Nat.sub_diag. reflexivity.
        -- destruct H3 as [-> | (H3 & H4 & H5)]; [lia|].
           assert (Hlast : firstn (stop - length p) t
                           = firstn (stop - 1 - length p) t ++ [at_ s (stop - 1)]).
           { rewrite firstn_snoc_at by lia.
             replace (stop - length p - 1)%nat with (stop - 1 - length p)%nat by lia.
             f_equal. f_equal. unfold at_. rewrite Hs at 1. rewrite app_nth2 by lia.
             reflexivity. }
           rewrite Hlast. now apply ascii_nonspace_trailing.
    + destruct Hm as (H1 & H2).
      destruct (Hcut stop ltac:(lia)) as [Hsl Hfs].
      rewrite Hsl.
      destruct (TrimRightFunc_spec (firstn (stop - length p) t)) as (q' & Hu & Hq' & Htr).
      exists p, (q' ++ q). repeat split; auto.
      * rewrite (app_assoc _ q'), <- Hu, app_assoc, <- Hfs. assumption.
      * now apply spaces_app.
      * apply (Hlead _ (q' ++ skipn (stop - length p) t)).
        rewrite app_assoc, <- Hu. symmetry. apply firstn_skipn.
  - destruct Hm as [-> Ht]. rewrite slice_to_end, Hsk. unfold TrimFunc.
    destruct (TrimLeftFunc_spec t) as (p1 & Ht1 & Hp1 & Hl1).
    destruct (TrimRightFunc_spec (TrimLeftFunc t IsSpace)) as (q & Ht2 & Hq & Htr).
    exists (p ++ p1), q. repeat split; auto.
    + rewrite <- app_assoc, <- Ht2, <- Ht1. exact Hs.
    + now apply spaces_app.
    + apply (noLeadingSpace_prefix _ q). now rewrite <- Ht2.
Qed.

(** *** Trimming is determined by the string *)

Lemma space_encoding_prefix_code (e e' y y' : gostring) :
  In e space_encodings -> In e' space_encodings ->
  e ++ y = e' ++ y' -> e = e' /\ y = y'.
Proof.
  intros He He' H.
  destruct (space_encoding_decode e y He) as (r & D & _).
  destruct (space_encoding_decode e' y' He') as (r' & D' & _).
  rewrite H, D' in D. injection D as _ Hl.
  assert (e = e') as <-.
  { apply (f_equal (firstn (length e))) in H.
    rewrite firstn_app, firstn_all, Nat.sub_diag in H.
    rewrite <- Hl, firstn_app, firstn_all, Nat.sub_diag in H. simpl in H.
    now rewrite !app_nil_r in H. }
  split; [reflexivity | now apply app_inv_head in H].
Qed.

Lemma space_encoding_suffix_code (e e' x x' : gostring) :
  In e space_encodings -> In e' space_encodings ->
  x ++ e = x' ++ e' -> e = e' /\ x = x'.
Proof.
  intros He He' H.
  destruct (space_encoding_decode_last x e He) as (r & D & _).
  destruct (space_encoding_decode_last x' e' He') as (r' & D' & _).
  rewrite H, D' in D. injection D as _ Hl.
  assert (Hx : length x = length x').
  { apply (f_equal (@length byte)) in H. rewrite !length_app in H. lia. }
  destruct (app_eq_app _ _ _ _ H) as (l & [[-> ->] | [-> ->]]).
  - rewrite length_app in Hx. assert (l = []) as -> by (apply length_zero_iff_nil; lia).
    now rewrite app_nil_r.
  - rewrite length_app in Hx. assert (l = []) as -> by (apply length_zero_iff_nil; lia).
    now rewrite app_nil_r.
Qed.

Lemma check_continuation :
  forallb (fun e => match e with
                    | _ :: tl => forallb (fun b => negb (isSpaceLead b)) tl
                    | [] => true
                    end) space_encodings = true.
Proof. vm_compute. reflexivity. Qed.

Lemma space_encoding_lead (c : byte) (e' : gostring) :
  In (c :: e') space_encodings -> isSpaceLead c = true.
Proof.
  intros H. unfold isSpaceLead. apply existsb_exists.
  exists (c :: e'). split; [assumption | now apply Byte.byte_dec_lb].
Qed.

Lemma space_encoding_tail (c b : byte) (e' : gostring) :
  In (c :: e') space_encodings -> In b e' -> isSpaceLead b = false.
Proof.
  intros H Hb. pose proof check_continuation as C.
  rewrite forallb_forall in C. specialize (C _ H). cbv beta iota in C.
  rewrite forallb_forall in C. specialize (C _ Hb). now apply negb_true_iff in C.
Qed.

Lemma noLeadingSpace_app (t q : gostring) :
  noLeadingSpace t -> t <> [] -> spaces q -> noLeadingSpace (t ++ q).
Proof.
  unfold noLeadingSpace. intros H Hne Hq.
  destruct (DecodeRuneInString (t ++ q)) as [r n] eqn:D. simpl.
  destruct (IsSpace r) eqn:Hs; [exfalso | reflexivity].
  destruct (decode_space_encoding _ _ _ D Hs) as (e & y & Hey & He & _).
  assert (Hpre : forall l, t = e ++ l -> False).
  { intros l ->. destruct (space_encoding_decode e l He) as (r' & D' & Hs').
    rewrite D' in H. simpl in H. congruence. }
  destruct (app_eq_app _ _ _ _ Hey) as (l & [[Ht Hy] | [He' Hq']]).
  - now apply (Hpre l).
  - destruct l as [|b1 l'].
    + apply (Hpre []). rewrite !app_nil_r in *. congruence.
    + destruct t as [|c0 t']; [contradiction|].
      assert (Hb : isSpaceLead b1 = false).
      { rewrite He' in He. apply (space_encoding_tail c0 b1 (t' ++ b1 :: l') He).
        apply in_or_app. right. now left. }
      rewrite Hq' in Hq.
      inversion Hq as [Hnil | e' s' He'' Hs' Heq].
      destruct e' as [|c e'']; [now apply space_encoding_nonempty in He''|].
      rewrite <- !app_comm_cons in Heq. injection Heq as -> _.
      apply space_encoding_lead in He''. congruence.
Qed.

Lemma strip_left_unique (p : gostring) :
  spaces p ->
  forall p' u u', spaces p' -> p ++ u = p' ++ u' ->
    noLeadingSpace u -> noLeadingSpace u' -> u = u'.
Proof.
  assert (Hno : forall e s u, In e space_encodings -> noLeadingSpace ((e ++ s) ++ u) -> False).
  { intros e s u He H. unfold noLeadingSpace in H. rewrite <- app_assoc in H.
    destruct (space_encoding_decode e (s ++ u) He) as (r & D & Hs).
    rewrite D in H. simpl in H. congruence. }
  induction 1 as [|e s He Hs IH]; intros p' u u' Hp' H Hu Hu'.
  - destruct Hp' as [|e' s' He' Hs']; [assumption|].
    simpl in H. subst u. exfalso. eapply Hno; eassumption.
  - destruct Hp' as [|e' s' He' Hs'].
    + simpl in H. subst u'. exfalso. eapply Hno; eassumption.
    + rewrite <- !app_assoc in H.
      destruct (space_encoding_prefix_code _ _ _ _ He He' H) as [_ H'].
      eapply IH; eassumption.
Qed.

Lemma spaces_snoc_inv (q : gostring) :
  spaces q ->
  q = [] \/ exists q0 e, q = q0 ++ e /\ spaces q0 /\ In e space_encodings.
Proof.
  induction 1 as [|e s He Hs IH]; [now left|]. right.
  destruct IH as [-> | (q0 & e' & -> & Hq0 & He')].
  - exists [], e. rewrite app_nil_r. repeat split; [constructor | assumption].
  - exists (e ++ q0), e'. rewrite app_assoc. repeat split; [|assumption].
    now constructor.
Qed.

Lemma strip_right_unique (n : nat) :
  forall q q' t t', (length q <= n)%nat -> spaces q -> spaces q' ->
    t ++ q = t' ++ q' -> noTrailingSpace t -> noTrailingSpace t' -> t = t'.
Proof.
  assert (Hno : forall t q0 e, In e space_encodings -> noTrailingSpace (t ++ q0 ++ e) -> False).
  { intros t q0 e He H. unfold noTrailingSpace in H. rewrite app_assoc in H.
    destruct (space_encoding_decode_last (t ++ q0) e He) as (r & D & Hs).
    rewrite D in H. simpl in H. congruence. }
  induction n as [|n IH]; intros q q' t t' Hl Hq Hq' H Ht Ht'.
  - assert (q = []) as -> by (apply length_zero_iff_nil; lia).
    rewrite app_nil_r in H. subst t.
    destruct (spaces_snoc_inv q' Hq') as [-> | (q0 & e & -> & _ & He)].
    + now rewrite app_nil_r.
    + exfalso. eapply Hno; eassumption.
  - destruct (spaces_snoc_inv q Hq) as [-> | (q0 & e & -> & Hq0 & He)];
      destruct (spaces_snoc_inv q' Hq') as [-> | (q0' & e' & -> & Hq0' & He')].
    + now rewrite !app_nil_r in H.
    + rewrite app_nil_r in H. subst t. exfalso. eapply Hno; eassumption.
    + rewrite app_nil_r in H. subst t'. exfalso. eapply Hno; eassumption.
    + rewrite !app_assoc in H.
      destruct (space_encoding_suffix_code _ _ _ _ He He' H) as [_ H'].
      pose proof (space_encoding_length e He).
      rewrite length_app in Hl.
      apply (IH q0 q0' t t'); auto. lia.
Qed.

Theorem TrimSpace_unique (s p t q p' t' q' : gostring) :
  s = p ++ t ++ q -> s = p' ++ t' ++ q' ->
  spaces p -> spaces q -> spaces p' -> spaces q' ->
  noLeadingSpace t -> noTrailingSpace t ->
  noLeadingSpace t' -> noTrailingSpace t' ->
  t = t'.
Proof.
  intros Hs Hs' Hp Hq Hp' Hq' Hl Ht Hl' Ht'.
  rewrite Hs in Hs'. clear Hs.
  destruct t as [|c t0]; destruct t' as [|c' t0']; [reflexivity | | |].
  - (* the string is all whitespace, [t'] cannot hold anything *)
    exfalso. simpl in Hs'.
    assert (E : [] = (c' :: t0') ++ q').
    { apply (strip_left_unique (p ++ q) (spaces_app _ _ Hp Hq) p').
      - assumption.
      - now rewrite app_nil_r.
      - reflexivity.
      - apply noLeadingSpace_app; [assumption | discriminate | assumption]. }
    discriminate E.
  - exfalso. simpl in Hs'.
    assert (E : [] = (c :: t0) ++ q).
    { apply (strip_left_unique (p' ++ q') (spaces_app _ _ Hp' Hq') p).
      - assumption.
      - now rewrite app_nil_r.
      - reflexivity.
      - apply noLeadingSpace_app; [assumption | discriminate | assumption]. }
    discriminate E.
  - assert (E : (c :: t0) ++ q = (c' :: t0') ++ q').
    { apply (strip_left_unique p Hp p'); auto;
        apply noLeadingSpace_app; (assumption || discriminate). }
    apply (strip_right_unique (length q) q q'); auto.
Qed.

Lemma TrimSpace_decomposition (s p t q : gostring) :
  s = p ++ t ++ q -> spaces p -> spaces q ->
  noLeadingSpace t -> noTrailingSpace t -> TrimSpace s = t.
Proof.
  intros Hs Hp Hq Hl Ht.
  destruct (TrimSpace_spec s) as (p' & q' & Hs' & Hp' & Hq' & Hl' & Ht').
  eapply TrimSpace_unique with (s := s); eassumption.
Qed.

Lemma TrimSpace_spaces (p : gostring) : spaces p -> TrimSpace p = [].
Proof.
  intros Hp. apply (TrimSpace_decomposition p p [] []).
  - now rewrite app_nil_r.
  - assumption.
  - constructor.
  - reflexivity.
  - reflexivity.
Qed.

Lemma TrimSpace_app_l (p x : gostring) :
  spaces p -> TrimSpace (p ++ x) = TrimSpace x.
Proof.
  intros Hp.
  destruct (TrimSpace_spec x) as (p' & q' & Hx & Hp' & Hq' & Hl' & Ht').
  apply (TrimSpace_decomposition _ (p ++ p') _ q'); auto.
  - rewrite <- app_assoc. now rewrite <- Hx.
  - now apply spaces_app.
Qed.

Lemma TrimSpace_app_r (x q : gostring) :
  spaces q -> TrimSpace (x ++ q) = TrimSpace x.
Proof.
  intros Hq.
  destruct (TrimSpace_spec x) as (p' & q' & Hx & Hp' & Hq' & Hl' & Ht').
  apply (TrimSpace_decomposition _ p' _ (q' ++ q)); auto.
  - rewrite !app_assoc. rewrite <- (app_assoc p'). now rewrite <- Hx.
  - now apply spaces_app.
Qed.

Local Close Scope Z_scope.

(** ** Split *)

Section SplitFacts.

Variable sep : byte.

Lemma splitOn_cons (s : gostring) :
  splitOn sep s = hd [] (splitOn sep s) :: tl (splitOn sep s).
Proof.
  destruct s as [|c s]; [reflexivity|]. simpl.
  destruct (Byte.eqb c sep); [reflexivity|].
  destruct (splitOn sep s); reflexivity.
Qed.

Lemma Count_zero_iff (s : gostring) : Count s sep = 0 <-> ~ In sep s.
Proof.
  induction s as [|c s IH]; simpl; [tauto|].
  destruct (Byte.eqb c sep) eqn:E.
  - apply Byte.byte_dec_bl in E. subst. split; [discriminate | intros H; exfalso; auto].
  - apply Byte.eqb_false in E. simpl. rewrite IH. split.
    + intros H [H1 | H1]; auto.
    + intros H H1. apply H. now right.
Qed.

Lemma splitOn_app_l (a b : gostring) :
  ~ In sep a ->
  splitOn sep (a ++ b) = (a ++ hd [] (splitOn sep b)) :: tl (splitOn sep b).
Proof.
  induction a as [|c a IH]; intros H.
  - simpl. apply splitOn_cons.
  - simpl. destruct (Byte.eqb c sep) eqn:E.
    + apply Byte.byte_dec_bl in E. subst. exfalso. apply H. now left.
    + rewrite IH; [reflexivity|]. intros H1. apply H. now right.
Qed.

Lemma splitOn_sep (a b : gostring) :
  ~ In sep a -> splitOn sep (a ++ sep :: b) = a :: splitOn sep b.
Proof.
  intros H. rewrite splitOn_app_l by assumption. simpl.
  rewrite Byte.byte_dec_lb by reflexivity.
  simpl. now rewrite app_nil_r.
Qed.

Lemma splitOn_none (a : gostring) : ~ In sep a -> splitOn sep a = [a].
Proof.
  intros H. rewrite <- (app_nil_r a) at 1. rewrite splitOn_app_l by assumption.
  simpl. now rewrite app_nil_r.
Qed.

Lemma splitOn_app_r (b q : gostring) :
  ~ In sep q ->
  splitOn sep (b ++ q)
  = removelast (splitOn sep b) ++ [last (splitOn sep b) [] ++ q].
Proof.
  intros H. induction b as [|c b IH].
  - simpl. now apply splitOn_none.
  - simpl. destruct (Byte.eqb c sep).
    + rewrite IH. rewrite (splitOn_cons b). reflexivity.
    + rewrite IH. rewrite (splitOn_cons b).
      destruct (tl (splitOn sep b)) as [|x l]; reflexivity.
Qed.

Lemma splitOn_no_sep (s : gostring) :
  Forall (fun piece => ~ In sep piece) (splitOn sep s).
Proof.
  induction s as [|c s IH]; simpl.
  - constructor; [intros [] | constructor].
  - destruct (Byte.eqb c sep) eqn:E.
    + constructor; [intros [] | assumption].
    + apply Byte.eqb_false in E.
      destruct (splitOn sep s) as [|piece pieces].
      * constructor; [|constructor]. intros [H | []]. congruence.
      * inversion IH as [|? ? H1 H2]; subst. constructor; [|assumption].
        intros [H | H]; [congruence | auto].
Qed.

Lemma Index_spec (s : gostring) :
  match Index s sep with
  | None => ~ In sep s
  | Some m => exists a b, s = a ++ sep :: b /\ ~ In sep a /\ m = length a
  end.
Proof.
  induction s as [|c s IH]; simpl; [tauto|].
  destruct (Byte.eqb c sep) eqn:E.
  - apply Byte.byte_dec_bl in E. subst. exists [], s. simpl. tauto.
  - apply Byte.eqb_false in E. destruct (Index s sep) as [m|].
    + destruct IH as (a & b & -> & Ha & ->). exists (c :: a), b. simpl.
      repeat split. intros [H | H]; [congruence | auto].
    + intros [H | H]; [congruence | auto].
Qed.

Lemma Count_app (a b : gostring) : Count (a ++ b) sep = Count a sep + Count b sep.
Proof. induction a as [|c a IH]; simpl; [reflexivity | rewrite IH; lia]. Qed.

Lemma genSplit_loop_splitOn (n : nat) :
  forall s, Count s sep = n -> genSplit_loop n s sep = splitOn sep s.
Proof.
  induction n as [|n IH]; intros s Hc.
  - simpl. symmetry. apply splitOn_none. now apply Count_zero_iff.
  - simpl. pose proof (Index_spec s) as HI. destruct (Index s sep) as [m|].
    + destruct HI as (a & b & -> & Ha & ->).
      rewrite splitOn_sep by assumption.
      rewrite slice_from_0, firstn_app, firstn_all, Nat.sub_diag. simpl firstn.
      rewrite app_nil_r. f_equal.
      rewrite slice_to_end, skipn_app.
      rewrite skipn_all2 by lia.
      replace (length a + 1 - length a) with 1 by lia. simpl.
      apply IH. rewrite Count_app in Hc. simpl in Hc.
      rewrite (proj2 (Count_zero_iff a) Ha) in Hc.
      rewrite Byte.byte_dec_lb in Hc by reflexivity. simpl in Hc. lia.
    + apply Count_zero_iff in HI. lia.
Qed.

Theorem Split_splitOn (s : gostring) : Split s sep = splitOn sep s.
Proof. unfold Split. now apply genSplit_loop_splitOn. Qed.

End SplitFacts.

(** ** Statements *)

(** Trimming the script before it is split changes no trimmed fragment. *)
Lemma map_TrimSpace_Split (script : gostring) :
  map TrimSpace (Split (TrimSpace script) semicolon)
  = map TrimSpace (splitOn semicolon script).
Proof.
  destruct (TrimSpace_spec script) as (p & q & Hs & Hp & Hq & _).
  rewrite Split_splitOn. rewrite Hs at 2.
  rewrite splitOn_app_l by now apply spaces_no_semicolon.
  rewrite splitOn_app_r by now apply spaces_no_semicolon.
  remember (splitOn semicolon (TrimSpace script)) as L eqn:HeqL.
  assert (HL : L <> []) by (rewrite HeqL, splitOn_cons; discriminate).
  clear HeqL.
  pose proof (app_removelast_last [] HL) as EL.
  unfold gostring in *.
  remember (removelast L) as R eqn:ER. remember (last L []) as x eqn:Ex.
  rewrite EL. clear EL HL ER Ex.
  destruct R as [|y R]; simpl.
  - rewrite TrimSpace_app_l, TrimSpace_app_r by assumption. reflexivity.
  - rewrite TrimSpace_app_l by assumption. f_equal.
    rewrite !map_app. simpl. now rewrite TrimSpace_app_r.
Qed.

(** ** The statements of a script *)

Lemma TrimSpace_within (f : gostring) (c : byte) :
  In c (TrimSpace f) -> In c f.
Proof.
  intros H. destruct (TrimSpace_spec f) as (p & q & Hf & _).
  rewrite Hf. apply in_or_app. right. apply in_or_app. now left.
Qed.

Lemma statementsOf_wellFormed (script : gostring) :
  Forall wellFormed (statementsOf script).
Proof.
  unfold statementsOf.
  apply Forall_forall. intros stmt H.
  apply filter_In in H. destruct H as [H Hne].
  apply in_map_iff in H. destruct H as (f & <- & Hf).
  pose proof (splitOn_no_sep semicolon script) as Hsep.
  rewrite Forall_forall in Hsep. specialize (Hsep f Hf).
  destruct (TrimSpace_spec f) as (p & q & _ & _ & _ & Hl & Ht).
  repeat split; auto.
  - intros E. rewrite E in Hne. discriminate.
  - intros Hin. apply Hsep. now apply TrimSpace_within.
Qed.

Lemma onlySpaceAndSemicolon_pieces (fuel : nat) :
  forall s, length s <= fuel -> onlySpaceAndSemicolon_loop fuel s = true ->
    Forall spaces (splitOn semicolon s).
Proof.
  induction fuel as [|fuel IH]; intros s Hl H.
  - destruct s; [|simpl in Hl; lia]. repeat constructor.
  - destruct s as [|c s']; [repeat constructor|].
    cbn [onlySpaceAndSemicolon_loop] in H.
    destruct (Byte.eqb c semicolon) eqn:E.
    + cbn [splitOn]. rewrite E. constructor; [constructor|].
      apply IH; [simpl in Hl; lia | assumption].
    + remember (c :: s') as s eqn:Es.
      destruct (DecodeRuneInString s) as [r size] eqn:D.
      apply andb_true_iff in H. destruct H as [Hs H].
      destruct (decode_space_encoding _ _ _ D Hs) as (e & y & Hey & He & Hn).
      assert (Hsk : skipn size s = y).
      { rewrite Hey, Hn, skipn_app, skipn_all, Nat.sub_diag. reflexivity. }
      rewrite Hsk in H.
      pose proof (space_encoding_length e He) as Le.
      assert (Ly : length y <= fuel).
      { rewrite Hey, length_app in Hl. lia. }
      specialize (IH y Ly H).
      rewrite Hey, splitOn_app_l by now apply space_encoding_no_semicolon.
      rewrite (splitOn_cons semicolon y) in IH.
      inversion IH as [|? ? H1 H2]; subst. constructor; [|assumption].
      now constructor.
Qed.

Lemma onlySpaceAndSemicolon_statements (script : gostring) :
  onlySpaceAndSemicolon script = true -> statementsOf script = [].
Proof.
  intros H. apply onlySpaceAndSemicolon_pieces in H; [|apply le_n].
  unfold statementsOf.
  induction H as [|f fs Hf Hfs IH]; [reflexivity|].
  simpl. rewrite (TrimSpace_spaces f Hf). simpl. exact IH.
Qed.

(** ** The program *)

Section ProgramFacts.

Context {World Handle Result : Type}.
Variable sql_Open : gostring -> gostring -> World -> (Handle + error) * World.
Variable db_Ping : Handle -> World -> option error * World.
Variable db_Close : Handle -> World -> option error * World.
Variable db_Exec : Handle -> gostring -> World -> (Result + error) * World.
Variable os_ReadFile : gostring -> World -> (gostring + error) * World.

Implicit Types (db : Handle) (st : state World Handle) (script stmt : gostring).

Lemma Exec_log db stmt st :
  log (snd (Exec db_Exec db stmt st)) = log st ++ [CallExec db stmt].
Proof.
  unfold Exec, perform. now destruct (db_Exec db stmt (world st)).
Qed.

Lemma executeStatements_run db (fragments : list gostring) :
  forall st,
    executeStatements db_Exec db fragments st
    = runStatements db_Exec db (filter (fun stmt => negb (isEmpty stmt))
                                       (map TrimSpace fragments)) st.
Proof.
  induction fragments as [|f fragments IH]; intros st; [reflexivity|].
  cbn [executeStatements map filter].
  destruct (isEmpty (TrimSpace f)); cbn [negb]; [apply IH|].
  cbn [runStatements]. unfold bind.
  destruct (Exec db_Exec db (TrimSpace f) st) as [[res | err] st'];
    [apply IH | reflexivity].
Qed.

Lemma statementsOf_empty script :
  isEmpty (TrimSpace script) = true -> statementsOf script = [].
Proof.
  intros H. unfold statementsOf. rewrite <- map_TrimSpace_Split.
  destruct (TrimSpace script); [reflexivity | discriminate].
Qed.

(** The program runs the statements of the script, as the specification
    words them. *)
Lemma ExecuteScript_run db script st :
  ExecuteScript db_Exec db script st
  = runStatements db_Exec db (statementsOf script) st.
Proof.
  unfold ExecuteScript. destruct (isEmpty (TrimSpace script)) eqn:E.
  - now rewrite statementsOf_empty.
  - rewrite executeStatements_run. unfold statementsOf.
    now rewrite map_TrimSpace_Split.
Qed.

Lemma runStatements_log db (stmts : list gostring) :
  forall st, exists issued rest,
    stmts = issued ++ rest
    /\ log (snd (runStatements db_Exec db stmts st))
       = log st ++ map (CallExec db) issued
    /\ (fst (runStatements db_Exec db stmts st) = None -> rest = []).
Proof.
  induction stmts as [|stmt stmts IH]; intros st.
  - exists [], []. simpl. now rewrite app_nil_r.
  - cbn [runStatements]. unfold bind.
    pose proof (Exec_log db stmt st) as Hl.
    destruct (Exec db_Exec db stmt st) as [[res | err] st']; simpl in Hl.
    + destruct (IH st') as (issued & rest & -> & Hlog & Hnone).
      exists (stmt :: issued), rest. rewrite Hlog, Hl, <- app_assoc. auto.
    + exists [stmt], stmts. simpl. rewrite Hl. repeat split. discriminate.
Qed.

Lemma succeedAll_log db (pre : list gostring) :
  forall st st_k, succeedAll db_Exec db pre st = Some st_k ->
    log st_k = log st ++ map (CallExec db) pre.
Proof.
  induction pre as [|stmt pre IH]; intros st st_k H; simpl in H.
  - injection H as <-. simpl. now rewrite app_nil_r.
  - pose proof (Exec_log db stmt st) as Hl.
    destruct (Exec db_Exec db stmt st) as [[res | err] st']; [|discriminate].
    simpl in Hl. rewrite (IH _ _ H), Hl, <- app_assoc. reflexivity.
Qed.

Lemma runStatements_succeed db (pre rest : list gostring) :
  forall st st_k, succeedAll db_Exec db pre st = Some st_k ->
    runStatements db_Exec db (pre ++ rest) st = runStatements db_Exec db rest st_k.
Proof.
  induction pre as [|stmt pre IH]; intros st st_k H; simpl in H.
  - now injection H as <-.
  - cbn [app runStatements]. unfold bind.
    destruct (Exec db_Exec db stmt st) as [[res | err] st']; [|discriminate].
    now apply IH.
Qed.

Lemma runStatements_outcome db (stmts : list gostring) :
  forall st,
    match runStatements db_Exec db stmts st with
    | (None, st') => succeedAll db_Exec db stmts st = Some st'
    | (Some err, st') =>
      exists pre stmt post st_k e,
        stmts = pre ++ stmt :: post
        /\ succeedAll db_Exec db pre st = Some st_k
        /\ Exec db_Exec db stmt st_k = (inr e, st')
        /\ err = Errorf [Text "failed to execute statement: "; W e]
    end.
Proof.
  induction stmts as [|stmt stmts IH]; intros st; [reflexivity|].
  cbn [runStatements succeedAll]. unfold bind.
  destruct (Exec db_Exec db stmt st) as [[res | e] st1] eqn:E.
  - specialize (IH st1).
    destruct (runStatements db_Exec db stmts st1) as [[err|] st']; [|assumption].
    destruct IH as (pre & s & post & st_k & e & -> & Hp & He & ->).
    exists (stmt :: pre), s, post, st_k, e. repeat split; auto.
    cbn [succeedAll]. now rewrite E.
  - exists [], stmt, stmts, st, e. repeat split; auto.
Qed.

Lemma succeedAll_world db (pre : list gostring) :
  forall st st_k, succeedAll db_Exec db pre st = Some st_k ->
    world st_k = worldAfter db_Exec db pre (world st).
Proof.
  induction pre as [|stmt pre IH]; intros st st_k H; simpl in H.
  - now injection H as <-.
  - unfold Exec, perform in H. cbn [worldAfter fold_left].
    destruct (db_Exec db stmt (world st)) as [[res | err] w1]; [|discriminate].
    rewrite (IH _ _ H). reflexivity.
Qed.

(** What stopping at statement [k] looks like. *)
Lemma ExecuteScript_fails_at db script st (pre post : list gostring) stmt
      (st_k st' : state World Handle) (e : error) :
  statementsOf script = pre ++ stmt :: post ->
  succeedAll db_Exec db pre st = Some st_k ->
  Exec db_Exec db stmt st_k = (inr e, st') ->
  ExecuteScript db_Exec db script st
  = (Some (Errorf [Text "failed to execute statement: "; W e]), st')
  /\ log st' = log st ++ map (CallExec db) (pre ++ [stmt])
  /\ world st' = snd (db_Exec db stmt (world st_k)).
Proof.
  intros Hs Hp He. rewrite ExecuteScript_run, Hs.
  rewrite (runStatements_succeed db pre _ st st_k Hp).
  cbn [runStatements]. unfold bind. rewrite He. split; [reflexivity|].
  pose proof (Exec_log db stmt st_k) as Hl. rewrite He in Hl. simpl in Hl.
  rewrite Hl, (succeedAll_log db pre st st_k Hp), map_app, <- app_assoc.
  split; [reflexivity|].
  unfold Exec, perform in He. destruct (db_Exec db stmt (world st_k)).
  now injection He as _ <-.
Qed.

(** ** Properties of the specification *)


(** C2. If statements 1..k-1 of the script succeed and statement k fails,
    ExecuteScript stops there: the calls made are the submissions of
    statements 1..k and no other, and the error returned wraps the
    driver's error for statement k. *)
Theorem ExecuteScript_stops_at_first_failure
        db script st (pre post : list gostring) stmt
        (st_k st' : state World Handle) (e : error) :
  statementsOf script = pre ++ stmt :: post ->
  succeedAll db_Exec db pre st = Some st_k ->
  Exec db_Exec db stmt st_k = (inr e, st') ->
  exists err,
    ExecuteScript db_Exec db script st = (Some err, st')
    /\ Unwrap err = Some e
    /\ log st' = log st ++ map (CallExec db) (pre ++ [stmt]).
Proof.
  intros Hs Hp He.
  destruct (ExecuteScript_fails_at db script st pre post stmt st_k st' e
              Hs Hp He) as (H1 & H2 & _).
  eexists. split; [exact H1|]. split; [reflexivity | exact H2].
Qed.

(** C3. A script made of whitespace and semicolons only, the empty script
    included, succeeds and submits nothing: the state is left as it
    was. *)
Theorem ExecuteScript_blank_script db script st :
  onlySpaceAndSemicolon script = true ->
  ExecuteScript db_Exec db script st = (None, st).
Proof.
  intros H. rewrite ExecuteScript_run.
  now rewrite (onlySpaceAndSemicolon_statements script H).
Qed.

(** C4, amended.  When ExecuteScript fails at statement k, after statements
    1..k-1 succeeded, the calls it has made are the submissions of
    statements 1..k and nothing else: no transaction is opened, nothing
    is rolled back.  The database it leaves is the one the driver left
    after the failed attempt at statement k, made on the database as it
    was after statements 1..k-1 were applied; it is the database after
    exactly statements 1..k-1 when the driver leaves the database as it
    was on a failed statement. *)
Theorem ExecuteScript_keeps_earlier_effects
        db script st (pre post : list gostring) stmt
        (st_k : state World Handle) (e : error) :
  statementsOf script = pre ++ stmt :: post ->
  succeedAll db_Exec db pre st = Some st_k ->
  fst (db_Exec db stmt (world st_k)) = inr e ->
  fst (ExecuteScript db_Exec db script st) <> None
  /\ log (snd (ExecuteScript db_Exec db script st))
     = log st ++ map (CallExec db) pre ++ [CallExec db stmt]
  /\ world (snd (ExecuteScript db_Exec db script st))
     = snd (db_Exec db stmt (worldAfter db_Exec db pre (world st)))
  /\ (snd (db_Exec db stmt (worldAfter db_Exec db pre (world st)))
      = worldAfter db_Exec db pre (world st) ->
      world (snd (ExecuteScript db_Exec db script st))
      = worldAfter db_Exec db pre (world st)).
Proof.
  intros Hs Hp He.
  assert (Hx : exists st', Exec db_Exec db stmt st_k = (inr e, st')).
  { unfold Exec, perform. destruct (db_Exec db stmt (world st_k)) as [r w].
    simpl in He. subst r. eexists. reflexivity. }
  destruct Hx as (st' & Hx).
  destruct (ExecuteScript_fails_at db script st pre post stmt st_k st' e
              Hs Hp Hx) as (H1 & H2 & H3).
  rewrite H1. cbn [fst snd]. rewrite map_app in H2.
  rewrite <- (succeedAll_world db pre st st_k Hp).
  repeat split; auto; [discriminate | congruence].
Qed.

(** C5. When the handle opens but the ping fails, Connect closes the
    handle before it returns, returns no handle, and returns an error that
    wraps the ping error; if the close fails too, the message carries both
    the ping error and the close error. *)
Theorem Connect_ping_failure
        (driver dsn : gostring) st db (w1 w2 w3 : World) (perr : error)
        (cerr : option error) :
  isEmpty dsn = false ->
  sql_Open driver dsn (world st) = (inl db, w1) ->
  db_Ping db w1 = (Some perr, w2) ->
  db_Close db w2 = (cerr, w3) ->
  exists err,
    Connect sql_Open db_Ping db_Close driver dsn st
    = ((None, Some err),
       mkState w3 (log st ++ [CallOpen driver dsn; CallPing db; CallClose db]))
    /\ Unwrap err = Some perr
    /\ Error err
       = match cerr with
         | Some closeErr =>
           lit "failed to ping database: " ++ Error perr
           ++ lit " (close error: " ++ Error closeErr ++ lit ")"
         | None => lit "failed to ping database: " ++ Error perr
         end.
Proof.
  intros Hd Ho Hp Hc. unfold Connect. rewrite Hd.
  unfold bind, Open, Ping, Close, perform. rewrite Ho. cbn [world log].
  rewrite Hp. cbn [world log]. rewrite Hc.
  rewrite <- !app_assoc. cbn [app].
  destruct cerr as [closeErr|]; eexists; (split; [reflexivity|]);
    (split; [reflexivity|]).
  - reflexivity.
  - unfold Errorf. cbn. now rewrite app_nil_r.
Qed.

(** C6. With an empty connection string, whatever the driver name, Connect
    fails with the error of the argument check, returns no handle and
    makes no call: no connection is opened. *)
Theorem Connect_empty_dsn (driver : gostring) st :
  Connect sql_Open db_Ping db_Close driver [] st
  = ((None, Some (Plain (lit "DSN cannot be empty"))), st).
Proof. reflexivity. Qed.

(** C7. LoadScript on the empty path fails with the error of the argument
    check and reads nothing; on a path that cannot be read it fails with
    another error, which wraps the I/O error. *)
Theorem LoadScript_errors (path : gostring) st (e : error) (w' : World) :
  isEmpty path = false ->
  os_ReadFile path (world st) = (inr e, w') ->
  LoadScript os_ReadFile [] st
  = (([], Some (Plain (lit "script path cannot be empty"))), st)
  /\ exists err,
       LoadScript os_ReadFile path st
       = (([], Some err), mkState w' (log st ++ [CallReadFile path]))
       /\ Unwrap err = Some e
       /\ Error err = lit "failed to read script file: " ++ Error e
       /\ err <> Plain (lit "script path cannot be empty").
Proof.
  intros Hp Hr. split; [reflexivity|].
  unfold LoadScript. rewrite Hp. unfold bind, ReadFile, perform. rewrite Hr.
  eexists. split; [reflexivity|]. repeat split.
  - unfold Errorf. cbn. now rewrite app_nil_r.
  - discriminate.
Qed.

(** C8. For a file that can be read, LoadScript returns the bytes read,
    as they are, and no error. *)
Theorem LoadScript_content (path content : gostring) st (w' : World) :
  isEmpty path = false ->
  os_ReadFile path (world st) = (inl content, w') ->
  LoadScript os_ReadFile path st
  = ((content, None), mkState w' (log st ++ [CallReadFile path])).
Proof.
  intros Hp Hr. unfold LoadScript. rewrite Hp.
  unfold bind, ReadFile, perform. now rewrite Hr.
Qed.

(** C9. Every statement ExecuteScript submits is non-empty, begins and
    ends with a rune that is not a space, and holds no [;]. *)
Theorem ExecuteScript_statements_wellFormed db script st :
  exists issued,
    log (snd (ExecuteScript db_Exec db script st))
    = log st ++ map (CallExec db) issued
    /\ Forall wellFormed issued.
Proof.
  rewrite ExecuteScript_run.
  destruct (runStatements_log db (statementsOf script) st)
    as (issued & rest & Hs & Hl & _).
  exists issued. split; [assumption|].
  pose proof (statementsOf_wellFormed script) as H. rewrite Hs in H.
  now apply Forall_app in H.
Qed.

(** C10. Connect returns a handle or an error, never both and never
    neither: with an error the handle is nil; with a handle the error is
    nil, and the handle is the one that was opened and then pinged with
    success. *)
Theorem Connect_handle_xor_error (driver dsn : gostring) st :
  match Connect sql_Open db_Ping db_Close driver dsn st with
  | ((None, Some _), _) => True
  | ((Some db, None), st') =>
    exists w1,
      sql_Open driver dsn (world st) = (inl db, w1)
      /\ db_Ping db w1 = (None, world st')
      /\ log st' = log st ++ [CallOpen driver dsn; CallPing db]
  | _ => False
  end.
Proof.
  unfold Connect. destruct (isEmpty dsn); [exact I|].
  unfold bind, Open, Ping, Close, perform.
  destruct (sql_Open driver dsn (world st)) as [[db | err] w1] eqn:Ho; [|exact I].
  cbn [world log].
  destruct (db_Ping db w1) as [[perr|] w2] eqn:Hp.
  - cbn [world log]. destruct (db_Close db w2) as [[closeErr|] w3]; exact I.
  - exists w1. cbn [world log]. rewrite <- app_assoc. auto.
Qed.

End ProgramFacts.

(** ** The properties at work on the small environment *)


Lemma ExecuteScript_stops_at_first_failure_witness :
  exists err,
    ExecuteScript Toy.db_Exec tt
      (lit "CREATE TABLE t (id INTEGER); INVALID SQL STATEMENT; INSERT INTO t VALUES (1);")
      (Toy.fresh true true)
    = (Some err,
       mkState (Toy.mkWorld true true [lit "CREATE TABLE t (id INTEGER)"])
               [CallExec tt (lit "CREATE TABLE t (id INTEGER)");
                CallExec tt Toy.rejected])
    /\ Unwrap err = Some (Plain (lit "syntax error"))
    /\ [CallExec tt (lit "CREATE TABLE t (id INTEGER)"); CallExec tt Toy.rejected]
       = [] ++ map (CallExec tt) ([lit "CREATE TABLE t (id INTEGER)"] ++ [Toy.rejected]).
Proof.
  apply (ExecuteScript_stops_at_first_failure Toy.db_Exec tt
           (lit "CREATE TABLE t (id INTEGER); INVALID SQL STATEMENT; INSERT INTO t VALUES (1);")
           (Toy.fresh true true)
           [lit "CREATE TABLE t (id INTEGER)"] [lit "INSERT INTO t VALUES (1)"]
           Toy.rejected
           (mkState (Toy.mkWorld true true [lit "CREATE TABLE t (id INTEGER)"])
                    [CallExec tt (lit "CREATE TABLE t (id INTEGER)")])).
  - vm_compute. reflexivity.
  - vm_compute. reflexivity.
  - vm_compute. reflexivity.
Defined.

Lemma ExecuteScript_blank_script_witness :
  onlySpaceAndSemicolon (lit ";;;  ;") = true
  /\ ExecuteScript Toy.db_Exec tt (lit ";;;  ;") (Toy.fresh true true)
     = (None, Toy.fresh true true)
  /\ ExecuteScript Toy.db_Exec tt [] (Toy.fresh true true)
     = (None, Toy.fresh true true).
Proof.
  split; [vm_compute; reflexivity|]. split.
  - apply (ExecuteScript_blank_script Toy.db_Exec tt (lit ";;;  ;")). vm_compute. reflexivity.
  - apply (ExecuteScript_blank_script Toy.db_Exec tt []). reflexivity.
Defined.

Lemma ExecuteScript_keeps_earlier_effects_witness :
  fst (ExecuteScript Partial.db_Exec tt Partial.script Partial.fresh) <> None
  /\ log (snd (ExecuteScript Partial.db_Exec tt Partial.script Partial.fresh))
     = log Partial.fresh ++ map (CallExec tt) [Partial.first] ++ [CallExec tt Partial.second]
  /\ world (snd (ExecuteScript Partial.db_Exec tt Partial.script Partial.fresh))
     = snd (Partial.db_Exec tt Partial.second
              (worldAfter Partial.db_Exec tt [Partial.first] (world Partial.fresh)))
  /\ (snd (Partial.db_Exec tt Partial.second
             (worldAfter Partial.db_Exec tt [Partial.first] (world Partial.fresh)))
      = worldAfter Partial.db_Exec tt [Partial.first] (world Partial.fresh) ->
      world (snd (ExecuteScript Partial.db_Exec tt Partial.script Partial.fresh))
      = worldAfter Partial.db_Exec tt [Partial.first] (world Partial.fresh)).
Proof.
  apply (ExecuteScript_keeps_earlier_effects Partial.db_Exec tt
           Partial.script Partial.fresh [Partial.first] [] Partial.second
           (mkState [1%Z] [CallExec tt Partial.first])
           (Plain (lit "UNIQUE constraint failed: t.id"))).
  - vm_compute. reflexivity.
  - vm_compute. reflexivity.
  - vm_compute. reflexivity.
Defined.

(** C4, as the specification has it, fails: the second statement of
    [Partial.script] fails after the first succeeded, and the database
    ExecuteScript leaves holds the rows 1 and 2, not the row 1 alone that
    the first statement inserted. *)
Lemma ExecuteScript_keeps_earlier_effects_counterexample :
  statementsOf Partial.script = [Partial.first] ++ Partial.second :: []
  /\ succeedAll Partial.db_Exec tt [Partial.first] Partial.fresh
     = Some (mkState [1%Z] [CallExec tt Partial.first])
  /\ fst (Partial.db_Exec tt Partial.second [1%Z])
     = inr (Plain (lit "UNIQUE constraint failed: t.id"))
  /\ fst (ExecuteScript Partial.db_Exec tt Partial.script Partial.fresh) <> None
  /\ worldAfter Partial.db_Exec tt [Partial.first] (world Partial.fresh) = [1%Z]
  /\ world (snd (ExecuteScript Partial.db_Exec tt Partial.script Partial.fresh)) = [1%Z; 2%Z]
  /\ world (snd (ExecuteScript Partial.db_Exec tt Partial.script Partial.fresh))
     <> worldAfter Partial.db_Exec tt [Partial.first] (world Partial.fresh).
Proof.
  repeat split; try (vm_compute; reflexivity); vm_compute; discriminate.
Defined.

Lemma Connect_ping_failure_witness :
  exists err,
    Connect Toy.sql_Open Toy.db_Ping Toy.db_Close (lit "sqlite") (lit ":memory:")
            (Toy.fresh false false)
    = ((None, Some err),
       mkState (Toy.mkWorld false false [])
               (log (Toy.fresh false false)
                ++ [CallOpen (lit "sqlite") (lit ":memory:"); CallPing tt; CallClose tt]))
    /\ Unwrap err = Some (Plain (lit "connection refused"))
    /\ Error err
       = lit "failed to ping database: " ++ lit "connection refused"
         ++ lit " (close error: " ++ lit "bad connection" ++ lit ")".
Proof.
  apply (Connect_ping_failure Toy.sql_Open Toy.db_Ping Toy.db_Close
           (lit "sqlite") (lit ":memory:") (Toy.fresh false false) tt
           (Toy.mkWorld false false []) (Toy.mkWorld false false [])
           (Toy.mkWorld false false [])
           (Plain (lit "connection refused")) (Some (Plain (lit "bad connection"))));
    reflexivity.
Defined.

Lemma LoadScript_errors_witness :
  LoadScript Toy.os_ReadFile [] (Toy.fresh true true)
  = (([], Some (Plain (lit "script path cannot be empty"))), Toy.fresh true true)
  /\ exists err,
       LoadScript Toy.os_ReadFile (lit "missing.sql") (Toy.fresh true true)
       = (([], Some err),
          mkState (Toy.mkWorld true true [])
                  (log (Toy.fresh true true) ++ [CallReadFile (lit "missing.sql")]))
       /\ Unwrap err = Some (Plain (lit "no such file or directory"))
       /\ Error err = lit "failed to read script file: "
                      ++ Error (Plain (lit "no such file or directory"))
       /\ err <> Plain (lit "script path cannot be empty").
Proof.
  apply (LoadScript_errors Toy.os_ReadFile (lit "missing.sql") (Toy.fresh true true)
           (Plain (lit "no such file or directory")) (Toy.mkWorld true true []));
    reflexivity.
Defined.

Lemma LoadScript_content_witness :
  LoadScript Toy.os_ReadFile (lit "valid.sql") (Toy.fresh true true)
  = ((lit "SELECT 1;", None),
     mkState (Toy.mkWorld true true [])
             (log (Toy.fresh true true) ++ [CallReadFile (lit "valid.sql")])).
Proof.
  apply (LoadScript_content Toy.os_ReadFile (lit "valid.sql") (lit "SELECT 1;")
           (Toy.fresh true true) (Toy.mkWorld true true []));
    reflexivity.
Defined.

(** * Further facts *)

(** * More about the library routines *)

Lemma splitOn_length (sep : byte) (s : gostring) :
  length (splitOn sep s) = Count s sep + 1.
Proof.
  induction s as [|c s IH]; [reflexivity|]. simpl.
  destruct (Byte.eqb c sep); simpl.
  - now rewrite IH.
  - rewrite (splitOn_cons sep s) in *. simpl in *. exact IH.
Qed.

Lemma splitOn_join (sep : byte) (s : gostring) :
  concat (map (fun piece => piece ++ [sep]) (splitOn sep s)) = s ++ [sep].
Proof.
  induction s as [|c s IH]; [reflexivity|]. simpl.
  destruct (Byte.eqb c sep) eqn:E.
  - apply Byte.byte_dec_bl in E. subst c. simpl. now rewrite IH.
  - rewrite (splitOn_cons sep s) in *. simpl in *. now rewrite IH.
Qed.

Lemma splitOn_app_sep (sep : byte) (a b : gostring) :
  splitOn sep (a ++ sep :: b) = splitOn sep a ++ splitOn sep b.
Proof.
  induction a as [|c a IH]; simpl.
  - now rewrite Byte.byte_dec_lb.
  - destruct (Byte.eqb c sep); rewrite IH; [reflexivity|].
    rewrite (splitOn_cons sep a). reflexivity.
Qed.

(** X17. Split loses nothing but the separators: the pieces, each followed by
    the separator, make up the string followed by the separator; there is
    one piece more than there are separators, and no piece holds one. *)
Theorem Split_pieces (s : gostring) (sep : byte) :
  concat (map (fun piece => piece ++ [sep]) (Split s sep)) = s ++ [sep]
  /\ length (Split s sep) = Count s sep + 1
  /\ Forall (fun piece => ~ In sep piece) (Split s sep).
Proof.
  rewrite Split_splitOn. split; [apply splitOn_join|].
  split; [apply splitOn_length | apply splitOn_no_sep].
Qed.

Lemma TrimSpace_fixed (t : gostring) :
  noLeadingSpace t -> noTrailingSpace t -> TrimSpace t = t.
Proof.
  intros Hl Ht. apply (TrimSpace_decomposition t [] t []); auto.
  - now rewrite app_nil_r.
  - constructor.
  - constructor.
Qed.

(** X18. TrimSpace cuts a part out of the middle of the string; the part begins
    and ends with a rune that is not a space, and trimming it again changes
    nothing. *)
Theorem TrimSpace_idempotent (s : gostring) :
  (exists p q, s = p ++ TrimSpace s ++ q)
  /\ noLeadingSpace (TrimSpace s)
  /\ noTrailingSpace (TrimSpace s)
  /\ TrimSpace (TrimSpace s) = TrimSpace s.
Proof.
  destruct (TrimSpace_spec s) as (p & q & Hs & _ & _ & Hl & Ht).
  split; [now exists p, q|]. repeat split; auto.
  now apply TrimSpace_fixed.
Qed.

Lemma blank_spaces (p : gostring) : TrimSpace p = [] -> spaces p.
Proof.
  intros H. destruct (TrimSpace_spec p) as (p' & q' & Hp & Hp' & Hq' & _).
  rewrite H in Hp. simpl in Hp. rewrite Hp. now apply spaces_app.
Qed.

(** ** More about the statements of a script *)

Lemma statementsOf_padding (p script q : gostring) :
  TrimSpace p = [] -> TrimSpace q = [] ->
  statementsOf (p ++ script ++ q) = statementsOf script.
Proof.
  intros Hp Hq. apply blank_spaces in Hp, Hq.
  unfold statementsOf. f_equal.
  rewrite <- (map_TrimSpace_Split (p ++ script ++ q)), <- (map_TrimSpace_Split script).
  now rewrite TrimSpace_app_l, TrimSpace_app_r.
Qed.

Lemma statementsOf_app (a b : gostring) :
  statementsOf (a ++ semicolon :: b) = statementsOf a ++ statementsOf b.
Proof.
  unfold statementsOf. now rewrite splitOn_app_sep, map_app, filter_app.
Qed.

Lemma statementsOf_length (script : gostring) :
  length (statementsOf script) <= Count script semicolon + 1.
Proof.
  unfold statementsOf. rewrite <- splitOn_length.
  rewrite <- (length_map TrimSpace (splitOn semicolon script)).
  apply filter_length_le.
Qed.

Section MoreProgramFacts.

Context {World Handle Result : Type}.
Variable sql_Open : gostring -> gostring -> World -> (Handle + error) * World.
Variable db_Ping : Handle -> World -> option error * World.
Variable db_Close : Handle -> World -> option error * World.
Variable db_Exec : Handle -> gostring -> World -> (Result + error) * World.
Variable os_ReadFile : gostring -> World -> (gostring + error) * World.

Implicit Types (db : Handle) (st : state World Handle) (script stmt : gostring).

Lemma runStatements_app db (l1 l2 : list gostring) :
  forall st,
    runStatements db_Exec db (l1 ++ l2) st
    = match runStatements db_Exec db l1 st with
      | (None, st1) => runStatements db_Exec db l2 st1
      | (Some err, st1) => (Some err, st1)
      end.
Proof.
  induction l1 as [|stmt l1 IH]; intros st; [reflexivity|].
  cbn [app runStatements]. unfold bind.
  destruct (Exec db_Exec db stmt st) as [[res | err] st']; [apply IH | reflexivity].
Qed.

(** X2. If every statement of the script succeeds, ExecuteScript returns nil
    after submitting all of them, in order. *)
Theorem ExecuteScript_all_succeed db script st (st' : state World Handle) :
  succeedAll db_Exec db (statementsOf script) st = Some st' ->
  ExecuteScript db_Exec db script st = (None, st')
  /\ log st' = log st ++ map (CallExec db) (statementsOf script).
Proof.
  intros H. rewrite ExecuteScript_run. split.
  - rewrite <- (app_nil_r (statementsOf script)).
    now rewrite (runStatements_succeed db_Exec db _ [] st st' H).
  - now apply succeedAll_log with (db_Exec := db_Exec).
Qed.

(** X1. ExecuteScript returns nil exactly when every statement succeeded; an
    error it returns is the error of the first statement that failed,
    wrapped and prefixed with "failed to execute statement: ". *)
Theorem ExecuteScript_outcome db script st :
  match ExecuteScript db_Exec db script st with
  | (None, st') => succeedAll db_Exec db (statementsOf script) st = Some st'
  | (Some err, st') =>
    exists pre stmt post st_k e,
      statementsOf script = pre ++ stmt :: post
      /\ succeedAll db_Exec db pre st = Some st_k
      /\ Exec db_Exec db stmt st_k = (inr e, st')
      /\ Unwrap err = Some e
      /\ Error err = lit "failed to execute statement: " ++ Error e
  end.
Proof.
  rewrite ExecuteScript_run.
  pose proof (runStatements_outcome db_Exec db (statementsOf script) st) as H.
  destruct (runStatements db_Exec db (statementsOf script) st) as [[err|] st'];
    [|assumption].
  destruct H as (pre & stmt & post & st_k & e & Hs & Hp & He & ->).
  exists pre, stmt, post, st_k, e. repeat split; auto.
  unfold Errorf. cbn. now rewrite app_nil_r.
Qed.

(** X3. Two scripts joined by a semicolon run one after the other: the second
    is run only if the first returned nil, from the state the first left.
    In particular a semicolon at the end of a script changes nothing. *)
Theorem ExecuteScript_sequence db (a b : gostring) st :
  ExecuteScript db_Exec db (a ++ semicolon :: b) st
  = match ExecuteScript db_Exec db a st with
    | (None, st1) => ExecuteScript db_Exec db b st1
    | (Some err, st1) => (Some err, st1)
    end
  /\ ExecuteScript db_Exec db (a ++ [semicolon]) st = ExecuteScript db_Exec db a st.
Proof.
  assert (H : forall b',
    ExecuteScript db_Exec db (a ++ semicolon :: b') st
    = match ExecuteScript db_Exec db a st with
      | (None, st1) => ExecuteScript db_Exec db b' st1
      | (Some err, st1) => (Some err, st1)
      end).
  { intros b'. rewrite !ExecuteScript_run, statementsOf_app, runStatements_app.
    destruct (runStatements db_Exec db (statementsOf a) st) as [[err|] st1];
      [reflexivity|]. now rewrite ExecuteScript_run. }
  split; [apply H|]. rewrite (H []).
  destruct (ExecuteScript db_Exec db a st) as [[err|] st1]; reflexivity.
Qed.

(** X4. Whitespace around a script does not matter. *)
Theorem ExecuteScript_padding db (p script q : gostring) st :
  TrimSpace p = [] -> TrimSpace q = [] ->
  ExecuteScript db_Exec db (p ++ script ++ q) st = ExecuteScript db_Exec db script st.
Proof.
  intros Hp Hq. rewrite !ExecuteScript_run. now rewrite statementsOf_padding.
Qed.

(** X5. ExecuteScript calls nothing but Exec, on the handle it was given, and
    at most once more than the script has semicolons. *)
Theorem ExecuteScript_call_bound db script st :
  exists issued,
    log (snd (ExecuteScript db_Exec db script st)) = log st ++ map (CallExec db) issued
    /\ length issued <= Count script semicolon + 1.
Proof.
  rewrite ExecuteScript_run.
  destruct (runStatements_log db_Exec db (statementsOf script) st)
    as (issued & rest & Hs & Hl & _).
  exists issued. split; [assumption|].
  pose proof (statementsOf_length script) as H. rewrite Hs, length_app in H. lia.
Qed.

(** X6. When the driver cannot open the handle, Connect returns no handle and
    an error that wraps the driver's; it does not ping and has nothing to
    close. *)
Theorem Connect_open_failure (driver dsn : gostring) st (e : error) (w1 : World) :
  isEmpty dsn = false ->
  sql_Open driver dsn (world st) = (inr e, w1) ->
  exists err,
    Connect sql_Open db_Ping db_Close driver dsn st
    = ((None, Some err), mkState w1 (log st ++ [CallOpen driver dsn]))
    /\ Unwrap err = Some e
    /\ Error err = lit "failed to open database: " ++ Error e.
Proof.
  intros Hd Ho. unfold Connect. rewrite Hd. unfold bind, Open, perform. rewrite Ho.
  eexists. split; [reflexivity|]. split; [reflexivity|].
  unfold Errorf. cbn. now rewrite app_nil_r.
Qed.

Lemma Connect_connected (driver dsn : gostring) st db (w1 w2 : World) :
  isEmpty dsn = false ->
  sql_Open driver dsn (world st) = (inl db, w1) ->
  db_Ping db w1 = (None, w2) ->
  Connect sql_Open db_Ping db_Close driver dsn st
  = ((Some db, None), mkState w2 (log st ++ [CallOpen driver dsn; CallPing db])).
Proof.
  intros Hd Ho Hp. unfold Connect. rewrite Hd.
  unfold bind, Open, Ping, perform. rewrite Ho. cbn [world log]. rewrite Hp.
  now rewrite <- app_assoc.
Qed.

(** X7. When the handle opens and answers the ping, Connect returns it, open:
    Close is not called. *)
Theorem Connect_success (driver dsn : gostring) st db (w1 w2 : World) :
  isEmpty dsn = false ->
  sql_Open driver dsn (world st) = (inl db, w1) ->
  db_Ping db w1 = (None, w2) ->
  Connect sql_Open db_Ping db_Close driver dsn st
  = ((Some db, None), mkState w2 (log st ++ [CallOpen driver dsn; CallPing db])).
Proof. apply Connect_connected. Qed.

Lemma Connect_calls_and_result (driver dsn : gostring) st :
  exists new,
    log (snd (Connect sql_Open db_Ping db_Close driver dsn st)) = log st ++ new
    /\ match fst (Connect sql_Open db_Ping db_Close driver dsn st) with
       | (Some db, None) => new = [CallOpen driver dsn; CallPing db]
       | (None, Some _) =>
         new = []
         \/ new = [CallOpen driver dsn]
         \/ exists db, new = [CallOpen driver dsn; CallPing db; CallClose db]
       | _ => False
       end.
Proof.
  unfold Connect. destruct (isEmpty dsn).
  { exists []. simpl. rewrite app_nil_r. auto. }
  unfold bind, Open, Ping, Close, perform.
  destruct (sql_Open driver dsn (world st)) as [[db | err] w1].
  - cbn [world log]. destruct (db_Ping db w1) as [[perr|] w2].
    + cbn [world log]. exists [CallOpen driver dsn; CallPing db; CallClose db].
      destruct (db_Close db w2) as [[closeErr|] w3]; cbn [fst snd log];
        rewrite <- !app_assoc; (split; [reflexivity | cbn; right; right; now exists db]).
    + exists [CallOpen driver dsn; CallPing db]. cbn [fst snd log].
      rewrite <- app_assoc. split; [reflexivity | cbn; reflexivity].
  - exists [CallOpen driver dsn]. split; [reflexivity | cbn; auto].
Qed.

(** X8. What Connect calls follows from what the environment answers.  With
    an empty connection string it calls nothing.  When the driver does not
    open a handle, Open is the only call.  A handle that the driver opened
    is pinged; when the ping succeeds that handle is returned, and it has
    not been closed; when the ping fails no handle is returned, and the
    opened handle has been closed, by the last call.  So an opened handle
    is returned or closed, never both and never neither. *)
Theorem Connect_calls (driver dsn : gostring) st :
  if isEmpty dsn then
    exists err, Connect sql_Open db_Ping db_Close driver dsn st = ((None, Some err), st)
  else
    match sql_Open driver dsn (world st) with
    | (inr _, w1) =>
      exists err,
        Connect sql_Open db_Ping db_Close driver dsn st
        = ((None, Some err), mkState w1 (log st ++ [CallOpen driver dsn]))
    | (inl db, w1) =>
      match db_Ping db w1 with
      | (None, w2) =>
        Connect sql_Open db_Ping db_Close driver dsn st
        = ((Some db, None),
           mkState w2 (log st ++ [CallOpen driver dsn; CallPing db]))
      | (Some _, w2) =>
        exists err,
          Connect sql_Open db_Ping db_Close driver dsn st
          = ((None, Some err),
             mkState (snd (db_Close db w2))
                     (log st ++ [CallOpen driver dsn; CallPing db; CallClose db]))
      end
    end.
Proof.
  unfold Connect. destruct (isEmpty dsn).
  { eexists. reflexivity. }
  unfold bind, Open, Ping, Close, perform.
  destruct (sql_Open driver dsn (world st)) as [[db | err] w1].
  - cbn [world log]. destruct (db_Ping db w1) as [[perr|] w2].
    + cbn [world log].
      destruct (db_Close db w2) as [[closeErr|] w3]; cbn [fst snd log];
        rewrite <- !app_assoc; eexists; reflexivity.
    + cbn [fst snd log]. rewrite <- app_assoc. reflexivity.
  - eexists. reflexivity.
Qed.

(** X9. LoadScript returns the text or an error, never both: with an error the
    text is empty.  It reads at most once, the file at the path it was
    given, and not at all when the path is empty. *)
Theorem LoadScript_outcome (path : gostring) st :
  match LoadScript os_ReadFile path st with
  | ((content, None), st') =>
    isEmpty path = false
    /\ os_ReadFile path (world st) = (inl content, world st')
    /\ log st' = log st ++ [CallReadFile path]
  | ((content, Some err), st') =>
    content = []
    /\ (isEmpty path = true /\ st' = st /\ Unwrap err = None
        \/ isEmpty path = false
           /\ log st' = log st ++ [CallReadFile path]
           /\ exists e, os_ReadFile path (world st) = (inr e, world st')
                        /\ Unwrap err = Some e)
  end.
Proof.
  unfold LoadScript. destruct (isEmpty path) eqn:Hp.
  { cbn. split; [reflexivity|]. left. auto. }
  unfold bind, ReadFile, perform.
  destruct (os_ReadFile path (world st)) as [[content | e] w'] eqn:Hr; cbn.
  - auto.
  - split; [reflexivity|]. right. repeat split. now exists e.
Qed.

End MoreProgramFacts.

(** ** The command *)

Lemma calls_app {Handle : Type} (t1 t2 : list (event Handle)) :
  calls (t1 ++ t2) = calls t1 ++ calls t2.
Proof.
  induction t1 as [|[c | to text] t1 IH]; simpl; [reflexivity | now rewrite IH | exact IH].
Qed.

Lemma calls_EnvCall {Handle : Type} (l : list (call Handle)) :
  calls (map EnvCall l) = l.
Proof. induction l as [|c l IH]; simpl; [reflexivity | now rewrite IH]. Qed.

Lemma Errorf_wrap (s : String.string) (e : error) :
  Error (Errorf [Text s; W e]) = lit s ++ Error e
  /\ Unwrap (Errorf [Text s; W e]) = Some e
  /\ chain (Errorf [Text s; W e]) = Errorf [Text s; W e] :: chain e.
Proof.
  unfold Errorf. cbn [map render concat wrappedOperand Error Unwrap chain].
  now rewrite app_nil_r.
Qed.

Section CommandFacts.

Context {World Handle Result : Type}.
Variable sql_Open : gostring -> gostring -> World -> (Handle + error) * World.
Variable db_Ping : Handle -> World -> option error * World.
Variable db_Close : Handle -> World -> option error * World.
Variable db_Exec : Handle -> gostring -> World -> (Result + error) * World.
Variable os_ReadFile : gostring -> World -> (gostring + error) * World.
Variables version commit date : gostring.

Implicit Types (f : flags) (p : process World Handle) (db : Handle).

Lemma closeDeferred_trace db p :
  exists out,
    trace (snd (closeDeferred db_Close db p)) = trace p ++ EnvCall (CallClose db) :: out
    /\ calls out = []
    /\ pworld (snd (closeDeferred db_Close db p)) = snd (db_Close db (pworld p))
    /\ out = match fst (db_Close db (pworld p)) with
             | Some closeErr => [Written Stderr (closeWarning closeErr)]
             | None => []
             end.
Proof.
  unfold closeDeferred, pbind, lift, Close, perform, write, pret. cbn [world log].
  destruct (db_Close db (pworld p)) as [[closeErr|] w]; cbn.
  - eexists. rewrite <- app_assoc. repeat split.
  - eexists. repeat split.
Qed.

(** X15. With -version, or without a DSN or a script file, [run] touches
    neither the files nor the database.  -version comes first: one line is
    written and nil returned, whatever the other flags; then the DSN is
    required, then the script file, and nothing is written. *)
Theorem run_without_environment f p :
  showVersion f || isEmpty (dsn f) || isEmpty (scriptFile f) = true ->
  exists out,
    snd (run sql_Open db_Ping db_Close db_Exec os_ReadFile version commit date f p)
    = mkProcess (pworld p) (trace p ++ out)
    /\ match fst (run sql_Open db_Ping db_Close db_Exec os_ReadFile
                      version commit date f p) with
       | Returned None =>
         showVersion f = true
         /\ out = [Written Stdout (versionLine version commit date)]
       | Returned (Some err) =>
         showVersion f = false /\ out = [] /\ Unwrap err = None
         /\ Error err = if isEmpty (dsn f) then lit "DSN is required (use -dsn flag)"
                        else lit "script file is required (use -file flag)"
       | Panicked => False
       end.
Proof.
  intros H. unfold run. destruct (showVersion f).
  { eexists. split; [reflexivity|]. cbn. auto. }
  destruct (isEmpty (dsn f)).
  { exists []. cbn. rewrite app_nil_r. destruct p. auto. }
  destruct (isEmpty (scriptFile f)); [|discriminate H].
  exists []. cbn. rewrite app_nil_r. destruct p. auto.
Qed.

(** X14. When the script cannot be read, [run] never gets to the database: the
    only call is the read, and the error returned wraps the loader's
    error, which wraps the I/O error. *)
Theorem run_load_failure f p (e : error) (w1 : World) :
  showVersion f = false -> isEmpty (dsn f) = false -> isEmpty (scriptFile f) = false ->
  os_ReadFile (scriptFile f) (pworld p) = (inr e, w1) ->
  exists err,
    run sql_Open db_Ping db_Close db_Exec os_ReadFile version commit date f p
    = (Returned (Some err),
       mkProcess w1 (trace p ++ [EnvCall (CallReadFile (scriptFile f))]))
    /\ Error err
       = lit "failed to load script: " ++ lit "failed to read script file: " ++ Error e
    /\ exists mid, chain err = err :: mid :: chain e.
Proof.
  intros Hv Hd Hf Hr. unfold run. rewrite Hv, Hd, Hf.
  unfold pbind, lift, LoadScript. rewrite Hf.
  unfold bind, ReadFile, perform. cbn [world log]. rewrite Hr.
  cbn [ret pret app map].
  eexists. split; [reflexivity|].
  destruct (Errorf_wrap "failed to load script: "
              (Errorf [Text "failed to read script file: "; W e])) as (H1 & _ & H3).
  destruct (Errorf_wrap "failed to read script file: " e) as (H1' & _ & H3').
  split.
  - now rewrite H1, H1'.
  - eexists. now rewrite H3, H3'.
Qed.

Lemma run_not_connected f p (script : gostring) (w1 : World)
      (h : option Handle) (cerr : error) (st2 : state World Handle) :
  showVersion f = false -> isEmpty (dsn f) = false -> isEmpty (scriptFile f) = false ->
  os_ReadFile (scriptFile f) (pworld p) = (inl script, w1) ->
  Connect sql_Open db_Ping db_Close (driver f) (dsn f) (mkState w1 [])
  = ((h, Some cerr), st2) ->
  run sql_Open db_Ping db_Close db_Exec os_ReadFile version commit date f p
  = (Returned (Some (Errorf [Text "failed to connect to database: "; W cerr])),
     mkProcess (world st2)
               (trace p ++ EnvCall (CallReadFile (scriptFile f)) :: map EnvCall (log st2))).
Proof.
  intros Hv Hd Hf Hr Hc.
  unfold run. rewrite Hv, Hd, Hf.
  unfold pbind at 1. unfold lift at 1. unfold LoadScript. rewrite Hf.
  unfold bind, ReadFile, perform. cbn [world log]. rewrite Hr.
  cbn [ret app]. unfold pbind, lift. cbn [pworld trace world log map]. rewrite Hc.
  destruct h; unfold pret; rewrite <- app_assoc; reflexivity.
Qed.

(** X13. When Connect fails, the script has been read but nothing is executed:
    after the read, the calls are those of Connect, none of them an Exec,
    and the error returned wraps the error of Connect. *)
Theorem run_connect_failure f p (script : gostring) (w1 : World)
        (h : option Handle) (cerr : error) (st2 : state World Handle) :
  showVersion f = false -> isEmpty (dsn f) = false -> isEmpty (scriptFile f) = false ->
  os_ReadFile (scriptFile f) (pworld p) = (inl script, w1) ->
  Connect sql_Open db_Ping db_Close (driver f) (dsn f) (mkState w1 [])
  = ((h, Some cerr), st2) ->
  run sql_Open db_Ping db_Close db_Exec os_ReadFile version commit date f p
  = (Returned (Some (Errorf [Text "failed to connect to database: "; W cerr])),
     mkProcess (world st2)
               (trace p ++ EnvCall (CallReadFile (scriptFile f)) :: map EnvCall (log st2)))
  /\ forall db stmt, ~ In (CallExec db stmt) (log st2).
Proof.
  intros Hv Hd Hf Hr Hc. split; [exact (run_not_connected f p script w1 h cerr st2 Hv Hd Hf Hr Hc)|].
  intros db stmt Hin.
  destruct (Connect_calls_and_result sql_Open db_Ping db_Close (driver f) (dsn f)
              (mkState w1 [])) as (new & Hl & Hm).
  rewrite Hc in Hl, Hm. cbn in Hl, Hm. subst new.
  destruct h as [db'|]; [contradiction|].
  destruct Hm as [Hm | [Hm | (db' & Hm)]]; rewrite Hm in Hin; cbn in Hin;
    intuition discriminate.
Qed.

Lemma run_connected f p (script : gostring) (w1 : World) db
      (st2 : state World Handle) :
  showVersion f = false -> isEmpty (dsn f) = false -> isEmpty (scriptFile f) = false ->
  os_ReadFile (scriptFile f) (pworld p) = (inl script, w1) ->
  Connect sql_Open db_Ping db_Close (driver f) (dsn f) (mkState w1 [])
  = ((Some db, None), st2) ->
  run sql_Open db_Ping db_Close db_Exec os_ReadFile version commit date f p
  = let p3 := mkProcess (world st2)
                (trace p ++ EnvCall (CallReadFile (scriptFile f)) :: map EnvCall (log st2)
                 ++ [Written Stdout (loadingLine (scriptFile f) (driver f))]) in
    let '(err, p4) := lift (ExecuteScript db_Exec db script) p3 in
    match err with
    | Some err =>
      (Returned (Some (Errorf [Text "failed to execute script: "; W err])),
       snd (closeDeferred db_Close db p4))
    | None =>
      (Returned None,
       snd (closeDeferred db_Close db
              (mkProcess (pworld p4) (trace p4 ++ [Written Stdout successLine]))))
    end.
Proof.
  intros Hv Hd Hf Hr Hc. unfold run. rewrite Hv, Hd, Hf.
  unfold pbind at 1. unfold lift at 1. unfold LoadScript. rewrite Hf.
  unfold bind at 1. unfold ReadFile, perform. cbn [world log]. rewrite Hr.
  cbn [ret app]. unfold pbind at 1. unfold lift at 1. cbn [pworld trace world log map].
  rewrite Hc.
  unfold pbind at 1. unfold write at 1. cbn [pworld trace].
  rewrite <- !app_assoc. cbn [app].
  unfold pbind at 1.
  destruct (lift (ExecuteScript db_Exec db script) _) as [[err|] p4].
  - unfold pbind. destruct (closeDeferred db_Close db p4). reflexivity.
  - unfold pbind at 1. unfold write at 1. unfold pbind.
    destruct (closeDeferred db_Close db _). reflexivity.
Qed.

(** X11. When the script is read, the database answers and every statement
    succeeds, [run] returns nil.  In order: the file is read, the handle
    opened and pinged, the first line written, the statements submitted, the
    second line written, the handle closed.  A failure to close changes
    nothing but for a warning on the error stream. *)
Theorem run_success f p (script : gostring) (w1 w2 w3 w5 : World) db
        (st4 : state World Handle) (closeErr : option error) :
  showVersion f = false -> isEmpty (dsn f) = false -> isEmpty (scriptFile f) = false ->
  os_ReadFile (scriptFile f) (pworld p) = (inl script, w1) ->
  sql_Open (driver f) (dsn f) w1 = (inl db, w2) ->
  db_Ping db w2 = (None, w3) ->
  succeedAll db_Exec db (statementsOf script) (mkState w3 []) = Some st4 ->
  db_Close db (world st4) = (closeErr, w5) ->
  run sql_Open db_Ping db_Close db_Exec os_ReadFile version commit date f p
  = (Returned None,
     mkProcess w5
       (trace p
        ++ [EnvCall (CallReadFile (scriptFile f));
            EnvCall (CallOpen (driver f) (dsn f));
            EnvCall (CallPing db);
            Written Stdout (loadingLine (scriptFile f) (driver f))]
        ++ map (fun stmt => EnvCall (CallExec db stmt)) (statementsOf script)
        ++ [Written Stdout successLine; EnvCall (CallClose db)]
        ++ match closeErr with
           | Some e => [Written Stderr (closeWarning e)]
           | None => []
           end)).
Proof.
  intros Hv Hd Hf Hr Ho Hp Hs Hc.
  rewrite (run_connected f p script w1 db _ Hv Hd Hf Hr
             (Connect_connected sql_Open db_Ping db_Close _ _ (mkState w1 []) db w2 w3
                Hd Ho Hp)).
  cbv zeta. cbn [world log app map].
  unfold lift at 1. cbn [pworld trace].
  rewrite ExecuteScript_run.
  rewrite <- (app_nil_r (statementsOf script)) at 1.
  rewrite (runStatements_succeed db_Exec db _ [] _ st4 Hs). cbn [runStatements ret].
  rewrite (succeedAll_log db_Exec db _ _ _ Hs). cbn [app].
  unfold closeDeferred, pbind, lift, Close, perform, write, pret.
  cbn [pworld trace world log]. rewrite Hc. cbn [app]. rewrite map_map.
  destruct closeErr as [e|]; cbn [map app world log pworld trace snd];
    rewrite <- !app_assoc; cbn [app]; reflexivity.
Qed.

(** X12. When a statement fails, [run] returns an error that wraps the error of
    ExecuteScript, which wraps the driver's error; the statements before it
    have been submitted, those after it have not, the second line is not
    written, and the handle is closed all the same. *)
Theorem run_statement_failure f p (script : gostring) (w1 w2 w3 : World) db
        (pre post : list gostring) (stmt : gostring)
        (st_k st' : state World Handle) (e : error) :
  showVersion f = false -> isEmpty (dsn f) = false -> isEmpty (scriptFile f) = false ->
  os_ReadFile (scriptFile f) (pworld p) = (inl script, w1) ->
  sql_Open (driver f) (dsn f) w1 = (inl db, w2) ->
  db_Ping db w2 = (None, w3) ->
  statementsOf script = pre ++ stmt :: post ->
  succeedAll db_Exec db pre (mkState w3 []) = Some st_k ->
  Exec db_Exec db stmt st_k = (inr e, st') ->
  exists err mid out,
    fst (run sql_Open db_Ping db_Close db_Exec os_ReadFile version commit date f p)
    = Returned (Some err)
    /\ Error err
       = lit "failed to execute script: " ++ lit "failed to execute statement: "
         ++ Error e
    /\ chain err = err :: mid :: chain e
    /\ trace (snd (run sql_Open db_Ping db_Close db_Exec os_ReadFile
                       version commit date f p))
       = trace p
         ++ [EnvCall (CallReadFile (scriptFile f));
             EnvCall (CallOpen (driver f) (dsn f));
             EnvCall (CallPing db);
             Written Stdout (loadingLine (scriptFile f) (driver f))]
         ++ map (fun s => EnvCall (CallExec db s)) (pre ++ [stmt])
         ++ EnvCall (CallClose db) :: out
    /\ out = match fst (db_Close db (world st')) with
             | Some closeErr => [Written Stderr (closeWarning closeErr)]
             | None => []
             end.
Proof.
  intros Hv Hd Hf Hr Ho Hp Hs Hk He.
  rewrite (run_connected f p script w1 db _ Hv Hd Hf Hr
             (Connect_connected sql_Open db_Ping db_Close _ _ (mkState w1 []) db w2 w3
                Hd Ho Hp)).
  cbv zeta. cbn [world log app map].
  unfold lift. cbn [pworld trace].
  destruct (ExecuteScript_fails_at db_Exec db script (mkState w3 []) pre post stmt
              st_k st' e Hs Hk He) as (H1 & H2 & _).
  rewrite H1. cbn [log app] in H2. cbv beta iota zeta. cbn [fst snd].
  match goal with
  | |- context [closeDeferred db_Close db ?q] =>
    destruct (closeDeferred_trace db q) as (out & Ht & _ & Hw & Ho')
  end.
  cbn [pworld trace] in Ht, Ho'.
  destruct (Errorf_wrap "failed to execute script: "
              (Errorf [Text "failed to execute statement: "; W e])) as (E1 & _ & E3).
  destruct (Errorf_wrap "failed to execute statement: " e) as (E1' & _ & E3').
  eexists. eexists. exists out. split; [reflexivity|]. split.
  { now rewrite E1, E1'. }
  split; [now rewrite E3, E3'|]. split; [|exact Ho'].
  rewrite Ht, H2, map_map, <- !app_assoc. reflexivity.
Qed.

Lemma runStatements_EnvCalls db (script : gostring) p :
  exists issued,
    trace (snd (lift (ExecuteScript db_Exec db script) p))
    = trace p ++ map EnvCall (map (CallExec db) issued).
Proof.
  unfold lift.
  destruct (runStatements_log db_Exec db (statementsOf script) (mkState (pworld p) []))
    as (issued & rest & _ & Hl & _).
  rewrite <- ExecuteScript_run in Hl.
  destruct (ExecuteScript db_Exec db script _) as [r st]. cbn in *.
  exists issued. now rewrite Hl.
Qed.

Lemma run_protocol f p :
  fst (run sql_Open db_Ping db_Close db_Exec os_ReadFile version commit date f p)
  <> Panicked
  /\ exists new,
       trace (snd (run sql_Open db_Ping db_Close db_Exec os_ReadFile
                       version commit date f p)) = trace p ++ new
       /\ (calls new = []
           \/ calls new = [CallReadFile (scriptFile f)]
           \/ calls new = [CallReadFile (scriptFile f); CallOpen (driver f) (dsn f)]
           \/ exists db issued,
                calls new = [CallReadFile (scriptFile f); CallOpen (driver f) (dsn f);
                             CallPing db]
                            ++ map (CallExec db) issued ++ [CallClose db]).
Proof.
  destruct (showVersion f || isEmpty (dsn f) || isEmpty (scriptFile f)) eqn:Hflags.
  { unfold run. destruct (showVersion f).
    - cbn. split; [discriminate|]. eexists. split; [reflexivity|]. now left.
    - destruct (isEmpty (dsn f)).
      + cbn. split; [discriminate|]. exists []. rewrite app_nil_r. auto.
      + destruct (isEmpty (scriptFile f)); [|discriminate Hflags].
        cbn. split; [discriminate|]. exists []. rewrite app_nil_r. auto. }
  apply orb_false_iff in Hflags. destruct Hflags as [Hflags Hf].
  apply orb_false_iff in Hflags. destruct Hflags as [Hv Hd].
  destruct (os_ReadFile (scriptFile f) (pworld p)) as [[script | e] w1] eqn:Hr.
  2:{ unfold run. rewrite Hv, Hd, Hf. unfold pbind, lift, LoadScript. rewrite Hf.
      unfold bind, ReadFile, perform. cbn [world log]. rewrite Hr. cbn.
      split; [discriminate|]. eexists. split; [reflexivity|]. auto. }
  destruct (Connect_calls_and_result sql_Open db_Ping db_Close (driver f) (dsn f)
              (mkState w1 [])) as (new & Hl & Hm).
  destruct (Connect sql_Open db_Ping db_Close (driver f) (dsn f) (mkState w1 []))
    as [[h cerr] st2] eqn:Hc.
  cbn [fst snd log app] in Hl, Hm.
  destruct cerr as [cerr|].
  { rewrite (run_not_connected f p script w1 h cerr st2 Hv Hd Hf Hr Hc).
    split; [discriminate|]. eexists. split; [reflexivity|].
    cbn [snd trace calls]. rewrite calls_EnvCall, Hl.
    destruct h as [db|]; [contradiction|].
    destruct Hm as [-> | [-> | (db & ->)]]; auto.
    right. right. right. now exists db, []. }
  destruct h as [db|]; [|contradiction]. rewrite Hm in Hl. clear Hm new.
  rewrite (run_connected f p script w1 db st2 Hv Hd Hf Hr Hc). cbv zeta.
  match goal with
  | |- context [lift (ExecuteScript db_Exec db script) ?q] =>
    destruct (runStatements_EnvCalls db script q) as (issued & Ht);
    destruct (lift (ExecuteScript db_Exec db script) q) as [[err|] p4]
  end; cbn [snd trace] in Ht.
  - destruct (closeDeferred_trace db p4) as (out & Hcl & Hn & _).
    split; [discriminate|]. cbn [snd]. rewrite Hcl, Ht, Hl, <- !app_assoc.
    eexists. split; [reflexivity|]. right. right. right. exists db, issued.
    cbn [calls app]. repeat (rewrite calls_app || rewrite calls_EnvCall || cbn [calls app]).
    now rewrite Hn.
  - match goal with
    | |- context [closeDeferred db_Close db ?q] =>
      destruct (closeDeferred_trace db q) as (out & Hcl & Hn & _)
    end.
    split; [discriminate|]. cbn [snd]. rewrite Hcl. cbn [trace].
    rewrite Ht, Hl, <- !app_assoc.
    eexists. split; [reflexivity|]. right. right. right. exists db, issued.
    cbn [calls app]. repeat (rewrite calls_app || rewrite calls_EnvCall || cbn [calls app]).
    now rewrite Hn.
Qed.

Lemma run_calls_connected f p (script : gostring) (w1 : World) db
      (st2 : state World Handle) :
  showVersion f = false -> isEmpty (dsn f) = false -> isEmpty (scriptFile f) = false ->
  os_ReadFile (scriptFile f) (pworld p) = (inl script, w1) ->
  Connect sql_Open db_Ping db_Close (driver f) (dsn f) (mkState w1 [])
  = ((Some db, None), st2) ->
  exists new,
    trace (snd (run sql_Open db_Ping db_Close db_Exec os_ReadFile
                    version commit date f p)) = trace p ++ new
    /\ calls new
       = CallReadFile (scriptFile f) :: log st2
         ++ log (snd (ExecuteScript db_Exec db script (mkState (world st2) [])))
         ++ [CallClose db].
Proof.
  intros Hv Hd Hf Hr Hc.
  rewrite (run_connected f p script w1 db st2 Hv Hd Hf Hr Hc). cbv zeta.
  unfold lift at 1. cbn [pworld trace].
  destruct (ExecuteScript db_Exec db script (mkState (world st2) []))
    as [[err|] st3]; cbn [snd log].
  - match goal with
    | |- context [closeDeferred db_Close db ?q] =>
      destruct (closeDeferred_trace db q) as (out & Hcl & Hn & _)
    end.
    rewrite Hcl. cbn [trace]. rewrite <- !app_assoc.
    eexists. split; [reflexivity|].
    cbn [calls app].
    repeat (rewrite calls_app || rewrite calls_EnvCall || cbn [calls app]).
    now rewrite Hn, app_nil_r.
  - match goal with
    | |- context [closeDeferred db_Close db ?q] =>
      destruct (closeDeferred_trace db q) as (out & Hcl & Hn & _)
    end.
    rewrite Hcl. cbn [trace]. rewrite <- !app_assoc.
    eexists. split; [reflexivity|].
    cbn [calls app].
    repeat (rewrite calls_app || rewrite calls_EnvCall || cbn [calls app]).
    now rewrite Hn, app_nil_r.
Qed.

(** X10. The calls [run] makes follow from what the environment answers, and
    it never panics.  It calls nothing with -version or without a DSN or a
    script file.  Otherwise it reads the script; when the read fails this
    is the only call.  Then it opens the database; when this fails it is
    the last call.  Then it pings the handle; when the ping fails the
    handle is closed and nothing else is called.  Otherwise the calls that
    follow are those of ExecuteScript on the text that was read, and then
    the close of the handle, last, whether ExecuteScript failed or not. *)
Theorem run_calls f p :
  fst (run sql_Open db_Ping db_Close db_Exec os_ReadFile version commit date f p)
  <> Panicked
  /\ exists new,
       trace (snd (run sql_Open db_Ping db_Close db_Exec os_ReadFile
                       version commit date f p)) = trace p ++ new
       /\ calls new
          = if showVersion f || isEmpty (dsn f) || isEmpty (scriptFile f) then []
            else
              match os_ReadFile (scriptFile f) (pworld p) with
              | (inr _, _) => [CallReadFile (scriptFile f)]
              | (inl script, w1) =>
                match sql_Open (driver f) (dsn f) w1 with
                | (inr _, _) =>
                  [CallReadFile (scriptFile f); CallOpen (driver f) (dsn f)]
                | (inl db, w2) =>
                  match db_Ping db w2 with
                  | (Some _, _) =>
                    [CallReadFile (scriptFile f); CallOpen (driver f) (dsn f);
                     CallPing db; CallClose db]
                  | (None, w3) =>
                    [CallReadFile (scriptFile f); CallOpen (driver f) (dsn f);
                     CallPing db]
                    ++ log (snd (ExecuteScript db_Exec db script (mkState w3 [])))
                    ++ [CallClose db]
                  end
                end
              end.
Proof.
  split; [apply run_protocol|].
  destruct (showVersion f || isEmpty (dsn f) || isEmpty (scriptFile f)) eqn:Hflags.
  { unfold run. destruct (showVersion f).
    - cbn. eexists. split; reflexivity.
    - destruct (isEmpty (dsn f)).
      + cbn. exists []. now rewrite app_nil_r.
      + destruct (isEmpty (scriptFile f)); [|discriminate Hflags].
        cbn. exists []. now rewrite app_nil_r. }
  apply orb_false_iff in Hflags. destruct Hflags as [Hflags Hf].
  apply orb_false_iff in Hflags. destruct Hflags as [Hv Hd].
  destruct (os_ReadFile (scriptFile f) (pworld p)) as [[script | e] w1] eqn:Hr.
  2:{ unfold run. rewrite Hv, Hd, Hf. unfold pbind, lift, LoadScript. rewrite Hf.
      unfold bind, ReadFile, perform. cbn [world log]. rewrite Hr. cbn.
      eexists. split; reflexivity. }
  destruct (sql_Open (driver f) (dsn f) w1) as [[db | e] w2] eqn:Ho.
  2:{ assert (Hc : Connect sql_Open db_Ping db_Close (driver f) (dsn f) (mkState w1 [])
                   = ((None, Some (Errorf [Text "failed to open database: "; W e])),
                      mkState w2 [CallOpen (driver f) (dsn f)])).
      { unfold Connect. rewrite Hd. unfold bind, Open, perform. cbn [world log].
        now rewrite Ho. }
      rewrite (run_not_connected f p script w1 _ _ _ Hv Hd Hf Hr Hc).
      eexists. split; [reflexivity|]. cbn [calls log map]. reflexivity. }
  destruct (db_Ping db w2) as [[perr|] w3] eqn:Hp.
  - assert (Hc : exists cerr st2,
               Connect sql_Open db_Ping db_Close (driver f) (dsn f) (mkState w1 [])
               = ((None, Some cerr), st2)
               /\ log st2 = [CallOpen (driver f) (dsn f); CallPing db; CallClose db]).
    { unfold Connect. rewrite Hd. unfold bind, Open, Ping, Close, perform.
      cbn [world log]. rewrite Ho. cbn [world log]. rewrite Hp. cbn [world log].
      destruct (db_Close db w3) as [[closeErr|] w4]; eexists; eexists;
        (split; [reflexivity | reflexivity]). }
    destruct Hc as (cerr & st2 & Hc & Hl).
    rewrite (run_not_connected f p script w1 _ _ _ Hv Hd Hf Hr Hc).
    eexists. split; [reflexivity|]. cbn [calls]. now rewrite calls_EnvCall, Hl.
  - pose proof (Connect_connected sql_Open db_Ping db_Close (driver f) (dsn f)
                  (mkState w1 []) db w2 w3 Hd Ho Hp) as Hc.
    destruct (run_calls_connected f p script w1 db _ Hv Hd Hf Hr Hc) as (new & Ht & Hn).
    exists new. split; [exact Ht|]. rewrite Hn. reflexivity.
Qed.


End CommandFacts.

(** ** The further facts at work on the small environment *)

Lemma ExecuteScript_all_succeed_witness :
  ExecuteScript Toy.db_Exec tt
    (lit "CREATE TABLE t (id INTEGER); INSERT INTO t VALUES (1);") (Toy.fresh true true)
  = (None,
     mkState (Toy.mkWorld true true [lit "CREATE TABLE t (id INTEGER)";
                                     lit "INSERT INTO t VALUES (1)"])
             [CallExec tt (lit "CREATE TABLE t (id INTEGER)");
              CallExec tt (lit "INSERT INTO t VALUES (1)")]).
Proof.
  apply (ExecuteScript_all_succeed Toy.db_Exec tt
           (lit "CREATE TABLE t (id INTEGER); INSERT INTO t VALUES (1);")
           (Toy.fresh true true)).
  vm_compute. reflexivity.
Defined.

Lemma ExecuteScript_padding_witness :
  ExecuteScript Toy.db_Exec tt
    ([x20; x0a; xc2; xa0] ++ lit "SELECT 1; SELECT 2" ++ [xe3; x80; x80; x09])
    (Toy.fresh true true)
  = ExecuteScript Toy.db_Exec tt (lit "SELECT 1; SELECT 2") (Toy.fresh true true).
Proof.
  apply (ExecuteScript_padding Toy.db_Exec tt).
  - vm_compute. reflexivity.
  - vm_compute. reflexivity.
Defined.

Lemma Connect_open_failure_witness :
  exists err,
    Connect (fun _ _ w => (inr (Plain (lit "sql: unknown driver")), w))
            Toy.db_Ping Toy.db_Close (lit "mysql") (lit "db") (Toy.fresh true true)
    = ((None, Some err),
       mkState (Toy.mkWorld true true [])
               (log (Toy.fresh true true) ++ [CallOpen (lit "mysql") (lit "db")]))
    /\ Unwrap err = Some (Plain (lit "sql: unknown driver"))
    /\ Error err = lit "failed to open database: "
                   ++ Error (Plain (lit "sql: unknown driver")).
Proof.
  apply (Connect_open_failure
           (fun _ _ w => (inr (Plain (lit "sql: unknown driver")), w))
           Toy.db_Ping Toy.db_Close (lit "mysql") (lit "db") (Toy.fresh true true));
    reflexivity.
Defined.

Lemma Connect_success_witness :
  Connect Toy.sql_Open Toy.db_Ping Toy.db_Close (lit "sqlite") (lit ":memory:")
          (Toy.fresh true true)
  = ((Some tt, None),
     mkState (Toy.mkWorld true true [])
             (log (Toy.fresh true true)
              ++ [CallOpen (lit "sqlite") (lit ":memory:"); CallPing tt])).
Proof.
  apply (Connect_success Toy.sql_Open Toy.db_Ping Toy.db_Close
           (lit "sqlite") (lit ":memory:") (Toy.fresh true true) tt
           (Toy.mkWorld true true []) (Toy.mkWorld true true []));
    reflexivity.
Defined.

Lemma run_without_environment_witness :
  exists out,
    snd (run Toy.sql_Open Toy.db_Ping Toy.db_Close Toy.db_Exec Toy.os_ReadFile
             (lit "dev") (lit "none") (lit "unknown")
             (mkFlags false (lit "postgres") [] []) (started true true))
    = mkProcess (Toy.mkWorld true true []) ([] ++ out)
    /\ match fst (run Toy.sql_Open Toy.db_Ping Toy.db_Close Toy.db_Exec Toy.os_ReadFile
                      (lit "dev") (lit "none") (lit "unknown")
                      (mkFlags false (lit "postgres") [] []) (started true true)) with
       | Returned None =>
         false = true
         /\ out = [Written Stdout (versionLine (lit "dev") (lit "none") (lit "unknown"))]
       | Returned (Some err) =>
         false = false /\ out = [] /\ Unwrap err = None
         /\ Error err = lit "DSN is required (use -dsn flag)"
       | Panicked => False
       end.
Proof.
  apply (run_without_environment Toy.sql_Open Toy.db_Ping Toy.db_Close Toy.db_Exec
           Toy.os_ReadFile (lit "dev") (lit "none") (lit "unknown")
           (mkFlags false (lit "postgres") [] []) (started true true)).
  reflexivity.
Defined.

Lemma run_load_failure_witness :
  exists err,
    run Toy.sql_Open Toy.db_Ping Toy.db_Close Toy.db_Exec Toy.os_ReadFile
        (lit "dev") (lit "none") (lit "unknown")
        (mkFlags false (lit "sqlite") (lit ":memory:") (lit "missing.sql"))
        (started true true)
    = (Returned (Some err),
       mkProcess (Toy.mkWorld true true [])
                 ([] ++ [EnvCall (CallReadFile (lit "missing.sql"))]))
    /\ Error err
       = lit "failed to load script: " ++ lit "failed to read script file: "
         ++ Error (Plain (lit "no such file or directory"))
    /\ exists mid, chain err = err :: mid :: chain (Plain (lit "no such file or directory")).
Proof.
  apply (run_load_failure Toy.sql_Open Toy.db_Ping Toy.db_Close Toy.db_Exec
           Toy.os_ReadFile (lit "dev") (lit "none") (lit "unknown")
           (mkFlags false (lit "sqlite") (lit ":memory:") (lit "missing.sql"))
           (started true true));
    reflexivity.
Defined.

Lemma run_connect_failure_witness :
  fst (run Toy.sql_Open Toy.db_Ping Toy.db_Close Toy.db_Exec Toy.os_ReadFile
           (lit "dev") (lit "none") (lit "unknown")
           (mkFlags false (lit "sqlite") (lit ":memory:") (lit "valid.sql"))
           (started false true))
  = Returned (Some (Errorf [Text "failed to connect to database: ";
                            W (Errorf [Text "failed to ping database: ";
                                       W (Plain (lit "connection refused"))])])).
Proof.
  rewrite (proj1 (run_connect_failure Toy.sql_Open Toy.db_Ping Toy.db_Close Toy.db_Exec
             Toy.os_ReadFile (lit "dev") (lit "none") (lit "unknown")
             (mkFlags false (lit "sqlite") (lit ":memory:") (lit "valid.sql"))
             (started false true) (lit "SELECT 1;") (Toy.mkWorld false true []) None
             (Errorf [Text "failed to ping database: ";
                      W (Plain (lit "connection refused"))])
             (mkState (Toy.mkWorld false true [])
                      [CallOpen (lit "sqlite") (lit ":memory:"); CallPing tt; CallClose tt])
             eq_refl eq_refl eq_refl eq_refl eq_refl)).
  reflexivity.
Defined.

Lemma run_success_witness :
  run Toy.sql_Open Toy.db_Ping Toy.db_Close Toy.db_Exec Toy.os_ReadFile
      (lit "dev") (lit "none") (lit "unknown")
      (mkFlags false (lit "sqlite") (lit ":memory:") (lit "valid.sql"))
      (started true false)
  = (Returned None,
     mkProcess (Toy.mkWorld true false [lit "SELECT 1"])
       ([EnvCall (CallReadFile (lit "valid.sql"));
         EnvCall (CallOpen (lit "sqlite") (lit ":memory:"));
         EnvCall (CallPing tt);
         Written Stdout (loadingLine (lit "valid.sql") (lit "sqlite"));
         EnvCall (CallExec tt (lit "SELECT 1"));
         Written Stdout successLine;
         EnvCall (CallClose tt);
         Written Stderr (closeWarning (Plain (lit "bad connection")))])).
Proof.
  apply (run_success Toy.sql_Open Toy.db_Ping Toy.db_Close Toy.db_Exec
           Toy.os_ReadFile (lit "dev") (lit "none") (lit "unknown")
           (mkFlags false (lit "sqlite") (lit ":memory:") (lit "valid.sql"))
           (started true false) (lit "SELECT 1;")
           (Toy.mkWorld true false []) (Toy.mkWorld true false [])
           (Toy.mkWorld true false []) (Toy.mkWorld true false [lit "SELECT 1"]) tt
           (mkState (Toy.mkWorld true false [lit "SELECT 1"])
                    [CallExec tt (lit "SELECT 1")])
           (Some (Plain (lit "bad connection"))));
    vm_compute; reflexivity.
Defined.

Lemma run_statement_failure_witness :
  exists err mid out,
    fst (run Toy.sql_Open Toy.db_Ping Toy.db_Close Toy.db_Exec
             (fun _ w => (inl (lit "INSERT INTO t VALUES (1); INVALID SQL STATEMENT; SELECT 1"), w))
             (lit "dev") (lit "none") (lit "unknown")
             (mkFlags false (lit "sqlite") (lit ":memory:") (lit "load.sql"))
             (started true true))
    = Returned (Some err)
    /\ Error err
       = lit "failed to execute script: " ++ lit "failed to execute statement: "
         ++ Error (Plain (lit "syntax error"))
    /\ chain err = err :: mid :: chain (Plain (lit "syntax error"))
    /\ trace (snd (run Toy.sql_Open Toy.db_Ping Toy.db_Close Toy.db_Exec
             (fun _ w => (inl (lit "INSERT INTO t VALUES (1); INVALID SQL STATEMENT; SELECT 1"), w))
             (lit "dev") (lit "none") (lit "unknown")
             (mkFlags false (lit "sqlite") (lit ":memory:") (lit "load.sql"))
             (started true true)))
       = []
         ++ [EnvCall (CallReadFile (lit "load.sql"));
             EnvCall (CallOpen (lit "sqlite") (lit ":memory:"));
             EnvCall (CallPing tt);
             Written Stdout (loadingLine (lit "load.sql") (lit "sqlite"))]
         ++ map (fun s => EnvCall (CallExec tt s))
                ([lit "INSERT INTO t VALUES (1)"] ++ [Toy.rejected])
         ++ EnvCall (CallClose tt) :: out
    /\ out = [].
Proof.
  apply (run_statement_failure Toy.sql_Open Toy.db_Ping Toy.db_Close Toy.db_Exec
           (fun _ w => (inl (lit "INSERT INTO t VALUES (1); INVALID SQL STATEMENT; SELECT 1"), w))
           (lit "dev") (lit "none") (lit "unknown")
           (mkFlags false (lit "sqlite") (lit ":memory:") (lit "load.sql"))
           (started true true)
           (lit "INSERT INTO t VALUES (1); INVALID SQL STATEMENT; SELECT 1")
           (Toy.mkWorld true true []) (Toy.mkWorld true true [])
           (Toy.mkWorld true true []) tt
           [lit "INSERT INTO t VALUES (1)"] [lit "SELECT 1"] Toy.rejected
           (mkState (Toy.mkWorld true true [lit "INSERT INTO t VALUES (1)"])
                    [CallExec tt (lit "INSERT INTO t VALUES (1)")])
           (mkState (Toy.mkWorld true true [lit "INSERT INTO t VALUES (1)"])
                    [CallExec tt (lit "INSERT INTO t VALUES (1)"); CallExec tt Toy.rejected])
           (Plain (lit "syntax error")));
    vm_compute; reflexivity.
Defined.
